(** * Range replica engine: batch model, replica raft storage, store and
      coalesced heartbeats.

    A shallow embedding of the Go sources
      - roachpb/batch.go          (module [roachpb])
      - storage/replica_raftstorage.go and storage/store.go (module [storage])
      - multiraft/multiraft.go    (module [multiraft])
    together with the properties stated about them. *)

From Stdlib Require Import ZArith Lia Bool.
From Stdlib.Strings Require Import Byte.
From stdpp Require Import base list option countable gmap sorting.

Local Open Scope Z_scope.

(** ** Go results: a value or an error *)

Inductive result (E A : Type) : Type :=
| Ok (a : A)
| Err (e : E).
Arguments Ok {E A} a.
Arguments Err {E A} e.

#[global] Instance result_ret {E} : MRet (result E) := fun _ a => Ok a.
#[global] Instance result_bind {E} : MBind (result E) :=
  fun _ _ k c => match c with Ok a => k a | Err e => Err e end.

Definition is_ok {E A} (c : result E A) : bool :=
  match c with Ok _ => true | Err _ => false end.

(** The errors the modelled functions return.  Go's [error] values that are
    only formatted text (util.Errorf) are told apart by what they report. *)
Inductive error : Type :=
| ErrDifferentLength        (* unable to combine batch responses of different length *)
| ErrCombine (slot : nat)   (* a slot's own Combine failed *)
| ErrPanic                  (* run-time panic: index out of range, nil dereference, failed type assertion *)
| ErrUnmarshal              (* a stored value or message does not decode *)
| ErrUnavailable            (* raft.ErrUnavailable *)
| ErrGroupDeleted           (* multiraft.ErrGroupDeleted *)
| ErrRangeNotFound          (* roachpb.RangeNotFoundError *)
| ErrRangeAlreadyExists     (* rangeAlreadyExists *)
| ErrStoreNotFound          (* store not found as replica of range *)
| ErrAlreadyBootstrapped    (* engine already bootstrapped *)
| ErrClusterIDUndetermined  (* store is non-empty but cluster ID could not be determined *)
| ErrBelongsToCluster       (* store already belongs to cockroach cluster *)
| ErrInvalidContents        (* store is not-empty and has invalid contents *)
| ErrStartKeyMax            (* start key must be less than KeyMax *)
| ErrEndKeySpecified        (* end key should not be specified for this operation *)
| ErrEndKeyMissing          (* end key must be specified *)
| ErrEndKeyMax              (* end key must be less than or equal to KeyMax *)
| ErrEndNotGreater          (* end key must be greater than start *)
| ErrStartLocalEndNot       (* start key is range-local, but end key is not *)
| ErrStartBelowLocalMax     (* start key must be greater than LocalMax *)
| ErrCollaborator (code : Z). (* an error of a collaborator outside these sources *)

#[global] Instance error_eq_dec : EqDecision error.
Proof. solve_decision. Defined.

(** ** Fixed-width integers *)

Definition uint64 (z : Z) : Z := z mod 2 ^ 64.
Definition int64 (z : Z) : Z := (z + 2 ^ 63) mod 2 ^ 64 - 2 ^ 63.
Definition int32 (z : Z) : Z := (z + 2 ^ 31) mod 2 ^ 32 - 2 ^ 31.

(** ** Byte strings: package bytes *)

#[global] Instance byte_eq_dec : EqDecision byte := Byte.byte_eq_dec.
#[global] Instance byte_countable : Countable byte :=
  inj_countable Byte.to_N Byte.of_N Byte.of_to_N.

Module bytes.

(** [bytes.Compare] on the contents of two slices. *)
Fixpoint Compare (a b : list byte) : comparison :=
    match a, b with
    | [], [] => Eq
    | [], _ :: _ => Lt
    | _ :: _, [] => Gt
    | x :: a', y :: b' =>
        match N.compare (Byte.to_N x) (Byte.to_N y) with
        | Eq => Compare a' b'
        | c => c
        end
    end.

Definition Equal (a b : list byte) : bool := bool_decide (a = b).

Fixpoint HasPrefix (s prefix : list byte) : bool :=
    match prefix, s with
    | [], _ => true
    | _ :: _, [] => false
    | p :: prefix', x :: s' => bool_decide (x = p) && HasPrefix s' prefix'
    end.

End bytes.

(** ** Go slices *)

(** [s[:i]] and [s[i:]] for [0 <= i <= len(s)]. *)
Definition slice_to {A} (s : list A) (i : nat) : list A := take i s.
Definition slice_from {A} (s : list A) (i : nat) : list A := drop i s.

Module roachpb.

(** *** Timestamps

    Modelled from the spec: [Timestamp], its [Less] and [Forward] live in
    roachpb/data.go, which is not under src/.  Section 3: a timestamp is
    [(wall_time, logical)] with lexicographic ordering and [Forward] is the
    monotonic max. *)
Record Timestamp := makeTS { WallTime : Z; Logical : Z }.

Definition ZeroTimestamp : Timestamp := makeTS 0 0.

Definition Less (t s : Timestamp) : bool :=
  (WallTime t <? WallTime s)
  || ((WallTime t =? WallTime s) && (Logical t <? Logical s)).

Definition Forward (t s : Timestamp) : Timestamp :=
  if Less t s then s else t.

(** *** Request flags

    Modelled from the spec: the flag constants are declared in roachpb/api.go,
    which is not under src/.  They are the eight single-bit flags of the
    table in section 4.F. *)
Definition isAdmin : Z := 1.
Definition isRead : Z := 2.
Definition isWrite : Z := 4.
Definition isTxn : Z := 8.
Definition isTxnWrite : Z := 16.
Definition isRange : Z := 32.
Definition isReverse : Z := 64.
Definition isAlone : Z := 128.

(** The [Request] interface, as far as batch.go uses it. *)
Class Request (R : Type) := { flags : R → Z }.

Section Batch.
Context {R : Type} `{Request R}.

(** [BatchRequest.flags]: the union of the flags of all requests. *)
Definition batch_flags (Requests : list R) : Z :=
    foldl (fun fl union => Z.lor fl (flags union)) 0 Requests.

Definition IsAdmin (ba : list R) : bool := negb (Z.land (batch_flags ba) isAdmin =? 0).
Definition IsWrite (ba : list R) : bool := negb (Z.land (batch_flags ba) isWrite =? 0).
Definition IsReadOnly (ba : list R) : bool :=
    negb (Z.land (batch_flags ba) isRead =? 0) && (Z.land (batch_flags ba) isWrite =? 0).

(** The closure [compatible] of [BatchRequest.Split]. *)
Definition mask : Z := Z.lor (Z.lor isWrite isAdmin) isReverse.

Definition compatible (exFlags newFlags : Z) : bool :=
    if exFlags =? 0 then true
    else if negb (Z.land newFlags isAlone =? 0) then false
    else Z.land mask exFlags =? Z.land mask newFlags.

(** The inner [for i, union := range ba.Requests] loop: it returns
      [len(part)], that is the index [i] of the first incompatible request,
      or [len(ba.Requests)] when the loop runs to its end. *)
Fixpoint scanPart (gFlags : Z) (i : nat) (rest : list R) : nat :=
    match rest with
    | [] => i
    | union :: rest' =>
        let fl := flags union in
        if compatible gFlags fl
        then scanPart (Z.lor gFlags fl) (S i) rest'
        else i
    end.

(** The outer [for len(ba.Requests) > 0] loop; [fuel] bounds its
      iterations. *)
Fixpoint SplitLoop (fuel : nat) (Requests : list R) (parts : list (list R))
    : list (list R) :=
    match fuel with
    | O => parts
    | S fuel' =>
        match Requests with
        | [] => parts
        | _ :: _ =>
            let part := slice_to Requests (scanPart 0 0%nat Requests) in
            SplitLoop fuel' (slice_from Requests (length part)) (parts ++ [part])
        end
    end.

(** [BatchRequest.Split].  Every iteration removes at least one request, so
      [len(ba.Requests)] iterations are enough (see [SplitLoop_fuel]). *)
Definition Split (Requests : list R) : list (list R) :=
    SplitLoop (length Requests) Requests [].

End Batch.

(** *** Responses and [BatchResponse.Combine] *)

(** What batch.go asks of a response: the type test for a
    NoopResponse, the interface test for Combinable and
    the slot's own [Combine], which mutates its receiver and may fail.  The
    response types themselves are declared in roachpb/api.go, which is not
    under src/. *)
Class Response (Resp : Type) := {
  isNoopResponse : Resp → bool;
  isCombinable : Resp → bool;
  slotCombine : Resp → Resp → result error Resp
}.

(** [Transaction.Update] (roachpb/data.go, not under src/) is taken as given. *)
Class Transaction (Txn : Type) := { Update : Txn → Txn → Txn }.

Section Combine.
Context {Resp Txn : Type} `{Response Resp} `{Transaction Txn}.

Record BatchResponse := {
    Responses : list Resp;
    Timestamp_ : Timestamp;
    Txn_ : Txn
  }.

Definition setResponses (br : BatchResponse) (rs : list Resp) : BatchResponse :=
    {| Responses := rs; Timestamp_ := Timestamp_ br; Txn_ := Txn_ br |}.

(** The loop [for i, l := 0, len(br.Responses); i < l; i++]; [n] is
      [l - i].  It returns the receiver's slots as mutated so far and the
      error that stopped it, if any. *)
Fixpoint combineLoop (n i : nat) (left right : list Resp)
    : list Resp * option error :=
    match n with
    | O => (left, None)
    | S n' =>
        match left !! i, right !! i with
        | Some valLeft, Some valRight =>
            if isCombinable valLeft && isCombinable valRight then
              match slotCombine valLeft valRight with
              | Err err => (left, Some err)
              | Ok combined => combineLoop n' (S i) (<[i := combined]> left) right
              end
            else if isNoopResponse valLeft then
              combineLoop n' (S i) (<[i := valRight]> left) right
            else combineLoop n' (S i) left right
        | _, _ => (left, Some ErrPanic)
        end
    end.

(** [BatchResponse.Combine]: the receiver after the call and the returned
      error ([None] is Go's nil). *)
Definition Combine (br otherBatch : BatchResponse) : BatchResponse * option error :=
    if negb (length (Responses otherBatch) =? length (Responses br))%nat then
      (br, Some ErrDifferentLength)
    else
      match combineLoop (length (Responses br)) 0%nat
                        (Responses br) (Responses otherBatch) with
      | (slots, Some err) => (setResponses br slots, Some err)
      | (slots, None) =>
          ({| Responses := slots;
              Timestamp_ := Forward (Timestamp_ br) (Timestamp_ otherBatch);
              Txn_ := Update (Txn_ br) (Txn_ otherBatch) |}, None)
      end.

End Combine.
Arguments BatchResponse : clear implicits.

(** *** The request and response unions

    Modelled from the spec: the request and response types and their flags
    are declared in roachpb/api.go, which is not under src/.  Section 4.F
    gives the flags' meaning: reads carry [isRead], mutations [isWrite],
    range operations [isRange], descending ones [isReverse], split and merge
    are [isAdmin] and must run alone ([isAlone]); batch.go adds that
    EndTransaction is singled out and that ConditionalPut both reads and
    writes. *)
Definition Key := option (list byte).

Definition keyBytes (k : Key) : list byte := default [] k.

(** Modelled from the spec: [KeyMin] and [KeyMax] are declared in
    roachpb/data.go, not under src/; its test expects [RKeyMax] to print as
    the two bytes 0xff 0xff. *)
Definition KeyMin : Key := Some [].
Definition KeyMax : Key := Some [xff; xff].

Inductive RequestUnion : Type :=
| GetRequest (key : Key)
| PutRequest (key : Key) (value : list byte)
| ConditionalPutRequest (key : Key) (value : list byte) (expValue : option (list byte))
| IncrementRequest (key : Key) (increment : Z)
| DeleteRequest (key : Key)
| DeleteRangeRequest (key endKey : Key)
| ScanRequest (key endKey : Key) (maxResults : Z)
| ReverseScanRequest (key endKey : Key) (maxResults : Z)
| EndTransactionRequest (commit : bool)
| AdminSplitRequest (key : Key) (splitKey : Key)
| AdminMergeRequest (key : Key).

Definition flagsOf (lst : list Z) : Z := foldr Z.lor 0 lst.

Definition requestFlags (r : RequestUnion) : Z :=
  match r with
  | GetRequest _ => flagsOf [isRead; isTxn]
  | PutRequest _ _ => flagsOf [isWrite; isTxn; isTxnWrite]
  | ConditionalPutRequest _ _ _ => flagsOf [isRead; isWrite; isTxn; isTxnWrite]
  | IncrementRequest _ _ => flagsOf [isRead; isWrite; isTxn; isTxnWrite]
  | DeleteRequest _ => flagsOf [isWrite; isTxn; isTxnWrite]
  | DeleteRangeRequest _ _ => flagsOf [isWrite; isTxn; isTxnWrite; isRange]
  | ScanRequest _ _ _ => flagsOf [isRead; isRange; isTxn]
  | ReverseScanRequest _ _ _ => flagsOf [isRead; isRange; isReverse; isTxn]
  | EndTransactionRequest _ => flagsOf [isWrite; isTxn; isAlone]
  | AdminSplitRequest _ _ => flagsOf [isAdmin; isAlone]
  | AdminMergeRequest _ => flagsOf [isAdmin; isAlone]
  end.

#[global] Instance RequestUnion_Request : Request RequestUnion :=
  {| flags := requestFlags |}.

(** Modelled from the spec: section 4.F, "corresponding slots are merged per
    request type (e.g., Scan concatenates rows)".  The range-spanning
    responses are the combinable ones; combining two responses of different
    types is a failed type assertion. *)
Inductive ResponseUnion : Type :=
| NoopResponse
| GetResponse (value : option (list byte))
| PutResponse
| ScanResponse (rows : list (list byte * list byte))
| ReverseScanResponse (rows : list (list byte * list byte))
| DeleteRangeResponse (numDeleted : Z).

Definition responseCombine (l r : ResponseUnion) : result error ResponseUnion :=
  match l, r with
  | ScanResponse a, ScanResponse b => Ok (ScanResponse (a ++ b))
  | ReverseScanResponse a, ReverseScanResponse b => Ok (ReverseScanResponse (a ++ b))
  | DeleteRangeResponse a, DeleteRangeResponse b => Ok (DeleteRangeResponse (a + b))
  | _, _ => Err ErrPanic
  end.

#[global] Instance ResponseUnion_Response : Response ResponseUnion := {|
  isNoopResponse r := match r with NoopResponse => true | _ => false end;
  isCombinable r :=
    match r with
    | ScanResponse _ | ReverseScanResponse _ | DeleteRangeResponse _ => true
    | _ => false
    end;
  slotCombine := responseCombine
|}.

(** A transaction reduced to what these examples need: its timestamp, which
    an update forwards. *)
#[global] Instance Timestamp_Transaction : Transaction Timestamp :=
  {| Update := Forward |}.

(** *** Descriptors and persisted metadata

    Modelled from the spec: these messages are declared in roachpb's
    generated code, which is not under src/; section 3 gives their fields. *)
Record ReplicaDescriptor := mkReplicaDescriptor {
  NodeID : Z;
  StoreID : Z;
  ReplicaID : Z
}.

Record RangeDescriptor := mkRangeDescriptor {
  RangeID : Z;
  StartKey : Key;
  EndKey : Key;
  Replicas : list ReplicaDescriptor;
  descNextReplicaID : Z
}.

Record RaftTruncatedState := mkTruncatedState { tsIndex : Z; tsTerm : Z }.

Record RaftTombstone := mkTombstone { NextReplicaID : Z }.

Record StoreIdent := mkStoreIdent {
  ClusterID : list byte;
  identNodeID : Z;
  identStoreID : Z
}.

Record Lease := mkLease {
  leaseStart : Timestamp;
  leaseExpiration : Timestamp;
  leaseRaftNodeID : Z
}.

Record MVCCStats := mkStats { KeyBytes : Z; ValBytes : Z; KeyCount : Z }.

End roachpb.

(** ** Messages of the consensus library (raftpb) and of roachpb *)

Module raftpb.

Inductive EntryType := EntryNormal | EntryConfChange.

Record Entry := mkEntry {
    Term : Z;
    Index : Z;
    Type_ : EntryType;
    Data : option (list byte)
  }.

Record HardState := mkHardState { hsTerm : Z; hsVote : Z; hsCommit : Z }.

Record ConfState := { Nodes : list Z }.

Record SnapshotMetadata := mkSnapshotMetadata {
    mdConfState : list Z;
    mdIndex : Z;
    mdTerm : Z
  }.

Inductive MessageType := MsgHeartbeat | MsgHeartbeatResp | MsgSnap | MsgApp | MsgVote.

Record Message := mkMessage {
    msgType : MessageType;
    msgTo : Z;
    msgFrom : Z
  }.

(** [sovRaft]: the number of bytes of the varint encoding of [x >= 0]. *)
Definition sovRaft (x : Z) : Z := (Z.log2 x + 7) / 7.

(** The generated [Entry.Size]: the length of the entry's protobuf
      encoding (tag byte and varint per scalar field, length-delimited
      data). *)
Definition Size (m : Entry) : Z :=
    (1 + sovRaft (match Type_ m with EntryNormal => 0 | EntryConfChange => 1 end))
    + (1 + sovRaft (Term m))
    + (1 + sovRaft (Index m))
    + match Data m with
      | None => 0
      | Some d => 1 + Z.of_nat (length d) + sovRaft (Z.of_nat (length d))
      end.

End raftpb.

(** ** The persisted key layout and the engine *)

Module keys.

(** Modelled from the spec: package keys is not under src/.  Section 6
      lists the persisted keys of a range; a key is represented by the
      constructor call that builds it rather than by its byte encoding.
      Within one range the raft log keys sort by index. *)
Inductive EngineKey : Type :=
  | StoreIdentKey
  | RaftHardStateKey (rangeID : Z)
  | RaftLogKey (rangeID : Z) (index : Z)
  | RaftTruncatedStateKey (rangeID : Z)
  | RaftAppliedIndexKey (rangeID : Z)
  | RaftLastIndexKey (rangeID : Z)
  | RaftTombstoneKey (rangeID : Z)
  | RaftLeaderLeaseKey (rangeID : Z)
  | RangeStatsKey (rangeID : Z)
  | ResponseCacheKey (rangeID : Z) (wallTime random : Z)
  | RangeDescriptorKey (startKey : list byte)
  | TransactionKey (addr : list byte) (id : list byte)
  | UserKey (key : list byte) (wallTime logical : Z).

#[global] Instance EngineKey_eq_dec : EqDecision EngineKey.
Proof. solve_decision. Defined.

Definition encodeKey (k : EngineKey) : Z * (Z * Z * Z) * (list byte * list byte) :=
    match k with
    | StoreIdentKey => (0, (0, 0, 0), ([], []))
    | RaftHardStateKey r => (1, (r, 0, 0), ([], []))
    | RaftLogKey r i => (2, (r, i, 0), ([], []))
    | RaftTruncatedStateKey r => (3, (r, 0, 0), ([], []))
    | RaftAppliedIndexKey r => (4, (r, 0, 0), ([], []))
    | RaftLastIndexKey r => (5, (r, 0, 0), ([], []))
    | RaftTombstoneKey r => (6, (r, 0, 0), ([], []))
    | RaftLeaderLeaseKey r => (7, (r, 0, 0), ([], []))
    | RangeStatsKey r => (8, (r, 0, 0), ([], []))
    | ResponseCacheKey r w x => (9, (r, w, x), ([], []))
    | RangeDescriptorKey a => (10, (0, 0, 0), (a, []))
    | TransactionKey a i => (11, (0, 0, 0), (a, i))
    | UserKey a w l => (12, (0, w, l), (a, []))
    end.

Definition decodeKey (c : Z * (Z * Z * Z) * (list byte * list byte)) : EngineKey :=
    match c with
    | (tag, (r, i, x), (a, b)) =>
        match tag with
        | 1 => RaftHardStateKey r
        | 2 => RaftLogKey r i
        | 3 => RaftTruncatedStateKey r
        | 4 => RaftAppliedIndexKey r
        | 5 => RaftLastIndexKey r
        | 6 => RaftTombstoneKey r
        | 7 => RaftLeaderLeaseKey r
        | 8 => RangeStatsKey r
        | 9 => ResponseCacheKey r i x
        | 10 => RangeDescriptorKey a
        | 11 => TransactionKey a b
        | 12 => UserKey a i x
        | _ => StoreIdentKey
        end
    end.

#[global] Instance EngineKey_countable : Countable EngineKey.
Proof. apply (inj_countable' encodeKey decodeKey). intros []; reflexivity. Defined.

End keys.

Module engine.
Import keys.

(** Modelled from the spec: package engine is not under src/.  The engine
      is the ordered key-value map of section 6 (Get, Put, Delete, Iterate,
      NewBatch, Commit), here the in-memory one: writes and commits succeed.
      A stored value is represented by the message it encodes, so reading it
      back as a different message is a decoding error. *)
Inductive Value : Type :=
  | VBytes (b : list byte)
  | VInt (n : Z)
  | VEntry (e : raftpb.Entry)
  | VHardState (hs : raftpb.HardState)
  | VTruncatedState (ts : roachpb.RaftTruncatedState)
  | VTombstone (t : roachpb.RaftTombstone)
  | VStoreIdent (i : roachpb.StoreIdent)
  | VRangeDescriptor (d : roachpb.RangeDescriptor).

Abbreviation Engine := (gmap EngineKey Value).

(** [Value.GetProto] into the respective message and [Value.GetInt]. *)
Definition getEntry (v : Value) : result error raftpb.Entry :=
    match v with VEntry e => Ok e | _ => Err ErrUnmarshal end.
Definition getHardState (v : Value) : result error raftpb.HardState :=
    match v with VHardState h => Ok h | _ => Err ErrUnmarshal end.
Definition getTruncatedState (v : Value) : result error roachpb.RaftTruncatedState :=
    match v with VTruncatedState t => Ok t | _ => Err ErrUnmarshal end.
Definition getTombstone (v : Value) : result error roachpb.RaftTombstone :=
    match v with VTombstone t => Ok t | _ => Err ErrUnmarshal end.
Definition getStoreIdent (v : Value) : result error roachpb.StoreIdent :=
    match v with VStoreIdent i => Ok i | _ => Err ErrUnmarshal end.
Definition GetInt (v : Value) : result error Z :=
    match v with VInt n => Ok n | _ => Err ErrUnmarshal end.

(** [MVCCGet] at the zero timestamp (a key without versions). *)
Definition MVCCGet (eng : Engine) (key : EngineKey) : option Value := eng !! key.

(** [MVCCGetProto]: whether the key was found, and the decoded message. *)
Definition MVCCGetProto {A} (decode : Value → result error A)
      (eng : Engine) (key : EngineKey) : result error (option A) :=
    match MVCCGet eng key with
    | None => Ok None
    | Some v => msg ← decode v; Ok (Some msg)
    end.

Definition MVCCPut (eng : Engine) (key : EngineKey) (value : Value) : Engine :=
    <[key := value]> eng.
Definition MVCCDelete (eng : Engine) (key : EngineKey) : Engine := delete key eng.

(** The raw [Put] and [Clear] of a batch. *)
Definition Put (eng : Engine) (key : EngineKey) (value : Value) : Engine :=
    <[key := value]> eng.
Definition Clear (eng : Engine) (key : EngineKey) : Engine := delete key eng.

(** A batch accumulates writes over the engine it was opened on and reads
      through to it: it is the engine's contents with the batch's writes
      applied.  [Commit] makes them the engine's contents. *)
Definition NewBatch (eng : Engine) : Engine := eng.
Definition Commit (eng batch : Engine) : Engine := batch.

(** [engine.Scan] over the whole key space [RKeyMin, RKeyMax) with a
      limit. *)
Definition Scan (eng : Engine) (max : nat) : list (EngineKey * Value) :=
    take max (map_to_list eng).

(** The key-value pairs under the raft log keys of [rangeID] with index in
      [lo, hi), in key order: the pairs [MVCCIterate] visits between
      [RaftLogKey(rangeID, lo)] and [RaftLogKey(rangeID, hi)]. *)
Definition isLogKV (rangeID lo hi : Z) (kv : EngineKey * Value) : option (Z * Value) :=
    match kv.1 with
    | RaftLogKey r i =>
        if bool_decide (r = rangeID ∧ lo ≤ i ∧ i < hi) then Some (i, kv.2) else None
    | _ => None
    end.

Definition indexLe (a b : Z * Value) : Prop := a.1 ≤ b.1.
#[global] Instance indexLe_dec a b : Decision (indexLe a b).
Proof. unfold indexLe. apply _. Defined.

Definition logRange (eng : Engine) (rangeID lo hi : Z) : list (Z * Value) :=
    merge_sort indexLe (omap (isLogKV rangeID lo hi) (map_to_list eng)).

(** [MVCCIterate]: calls [f] on each pair in order until it asks to stop
      or fails. *)
Fixpoint MVCCIterate {S} (f : S → Value → result error (S * bool))
      (kvs : list (Z * Value)) (st : S) : result error S :=
    match kvs with
    | [] => Ok st
    | kv :: kvs' =>
        match f st kv.2 with
        | Err err => Err err
        | Ok (st', true) => Ok st'
        | Ok (st', false) => MVCCIterate f kvs' st'
        end
    end.

End engine.

(** ** storage: the replica's raft storage and the store *)

Module storage.
Import keys engine.
Import roachpb(Key, keyBytes, RangeDescriptor, ReplicaDescriptor, Lease, MVCCStats,
                 RaftTruncatedState, RaftTombstone, StoreIdent).

(** Modelled from the spec: the initial log position of section 4.B,
      [term = 5] and [last_index = 10]; the constants are declared in
      replica.go, which is not under src/. *)
Definition raftInitialLogIndex : Z := 10.
Definition raftInitialLogTerm : Z := 5.

(** The in-memory fields of a [Replica] that these sources read or write;
      [lastIndex] and [appliedIndex] are the atomically updated caches. *)
Record Replica := mkReplica {
    desc : RangeDescriptor;
    lastIndex : Z;
    appliedIndex : Z;
    truncatedState : option RaftTruncatedState;
    stats : MVCCStats;
    lease : option Lease;
    maxBytes : Z
  }.

Definition setLastIndexCache (r : Replica) (i : Z) : Replica :=
    mkReplica (desc r) i (appliedIndex r) (truncatedState r) (stats r) (lease r) (maxBytes r).
Definition setAppliedIndexCache (r : Replica) (i : Z) : Replica :=
    mkReplica (desc r) (lastIndex r) i (truncatedState r) (stats r) (lease r) (maxBytes r).
Definition setCachedTruncatedState (r : Replica) (ts : RaftTruncatedState) : Replica :=
    mkReplica (desc r) (lastIndex r) (appliedIndex r) (Some ts) (stats r) (lease r) (maxBytes r).
Definition setStats (r : Replica) (ms : MVCCStats) : Replica :=
    mkReplica (desc r) (lastIndex r) (appliedIndex r) (truncatedState r) ms (lease r) (maxBytes r).
Definition setLease (r : Replica) (l : option Lease) : Replica :=
    mkReplica (desc r) (lastIndex r) (appliedIndex r) (truncatedState r) (stats r) l (maxBytes r).
Definition SetMaxBytes (r : Replica) (n : Z) : Replica :=
    mkReplica (desc r) (lastIndex r) (appliedIndex r) (truncatedState r) (stats r) (lease r) n.
Definition setDescWithoutProcessUpdate (r : Replica) (d : RangeDescriptor) : Replica :=
    mkReplica d (lastIndex r) (appliedIndex r) (truncatedState r) (stats r) (lease r) (maxBytes r).

(** Modelled from the spec: [Replica.isInitialized] is in replica.go, not
      under src/.  Section 4.B: a replica is initialized when it has a real
      descriptor, that is one with an end key. *)
Definition isInitialized (r : Replica) : bool :=
    (0 <? length (keyBytes (roachpb.EndKey (desc r))))%nat.

Record RaftSnapshotData := mkSnapshotData {
    sdRangeDescriptor : RangeDescriptor;
    KV : list (EngineKey * Value)
  }.

(** [raftpb.Snapshot]; [snapData] is [None] when the bytes of [Data] do not
      unmarshal into a [RaftSnapshotData]. *)
Record Snapshot := mkSnapshot {
    snapData : option RaftSnapshotData;
    Metadata : raftpb.SnapshotMetadata
  }.

(** What the replica asks of code outside these sources: the size of an
      encoded entry (raftpb), the lease and statistics readers and the
      store's hook for descriptor updates (replica.go, stats.go), and the
      gossiped zone configuration, absent until first gossiped. *)
Class Collaborators := {
    entrySize : raftpb.Entry → Z;
    loadLeaderLease : Engine → Z → result error (option Lease);
    newRangeStats : Z → Engine → result error MVCCStats;
    processRangeDescriptorUpdate : Replica → option error;
    GetZoneConfigForKey : option (Key → result error Z)
  }.

(** Modelled from the spec: the replica data iterator
      (replica_data_iter.go, not under src/) visits "every key in the range's
      span": the keys local to the range ID, the range-local keys addressed
      inside [StartKey, EndKey) and the user keys inside it. *)
Definition inSpan (d : RangeDescriptor) (k : list byte) : bool :=
    match bytes.Compare (keyBytes (roachpb.StartKey d)) k, bytes.Compare k (keyBytes (roachpb.EndKey d)) with
    | (Lt | Eq), Lt => true
    | _, _ => false
    end.

Definition isReplicaData (d : RangeDescriptor) (k : EngineKey) : bool :=
    match k with
    | StoreIdentKey => false
    | RaftHardStateKey r | RaftLogKey r _ | RaftTruncatedStateKey r
    | RaftAppliedIndexKey r | RaftLastIndexKey r | RaftTombstoneKey r
    | RaftLeaderLeaseKey r | RangeStatsKey r | ResponseCacheKey r _ _ =>
        bool_decide (r = roachpb.RangeID d)
    | RangeDescriptorKey a | TransactionKey a _ | UserKey a _ _ => inSpan d a
    end.

Definition replicaDataKeys (d : RangeDescriptor) (eng : Engine) : list EngineKey :=
    filter (fun k => isReplicaData d k = true) (map_to_list eng).*1.

(** The value a key holds after the pairs [kvs] are written in order over
      a key that held [before]: the last pair for the key wins. *)
Definition writtenValue (k : EngineKey) (before : option Value)
      (kvs : list (EngineKey * Value)) : option Value :=
    foldl (fun held kv => if bool_decide (kv.1 = k) then Some kv.2 else held) before kvs.

Section ReplicaRaftStorage.
Context `{Collaborators}.

(** The closure [scanFunc] of [Entries], acting on [(ents, size)]. *)
Definition scanFunc (maxBytes : Z) (st : list raftpb.Entry * Z) (value : Value)
      : result error (list raftpb.Entry * Z * bool) :=
      ent ← getEntry value;
      let size := uint64 (st.2 + uint64 (entrySize ent)) in
      Ok (st.1 ++ [ent], size, (0 <? maxBytes) && (maxBytes <? size)).

(** [Replica.Entries]. *)
Definition Entries (eng : Engine) (r : Replica) (lo hi maxBytes : Z)
      : result error (list raftpb.Entry) :=
      let rangeID := roachpb.RangeID (desc r) in
      st ← MVCCIterate (scanFunc maxBytes) (logRange eng rangeID lo hi) ([], 0);
      let ents := st.1 in
      let size := st.2 in
      if negb (Z.of_nat (length ents) =? int64 (uint64 (hi - lo)))
         && ((maxBytes =? 0) || (size <? maxBytes))
      then Err ErrUnavailable
      else Ok ents.

(** [Replica.raftTruncatedState]; it may fill the replica's cache. *)
Definition raftTruncatedState (eng : Engine) (r : Replica)
      : Replica * result error RaftTruncatedState :=
      match truncatedState r with
      | Some ts => (r, Ok ts)
      | None =>
          match MVCCGetProto getTruncatedState eng
                  (RaftTruncatedStateKey (roachpb.RangeID (desc r))) with
          | Err err => (r, Err err)
          | Ok found =>
              let ts :=
                match found with
                | Some ts => ts
                | None =>
                    if isInitialized r
                    then roachpb.mkTruncatedState raftInitialLogIndex raftInitialLogTerm
                    else roachpb.mkTruncatedState 0 0
                end in
              if negb (roachpb.tsIndex ts =? 0)
              then (setCachedTruncatedState r ts, Ok ts)
              else (r, Ok ts)
          end
      end.

(** [Replica.Term]. *)
Definition Term (eng : Engine) (r : Replica) (i : Z) : Replica * result error Z :=
      match Entries eng r i (uint64 (i + 1)) 0 with
      | Err ErrUnavailable =>
          match raftTruncatedState eng r with
          | (r', Err err) => (r', Err err)
          | (r', Ok ts) =>
              if i =? roachpb.tsIndex ts then (r', Ok (roachpb.tsTerm ts))
              else (r', Err ErrUnavailable)
          end
      | Err err => (r, Err err)
      | Ok [] => (r, Ok 0)
      | Ok (ent :: _) => (r, Ok (raftpb.Term ent))
      end.

(** [Replica.LastIndex] and [Replica.FirstIndex]. *)
Definition LastIndex (r : Replica) : Z := lastIndex r.

Definition FirstIndex (eng : Engine) (r : Replica) : Replica * result error Z :=
      match raftTruncatedState eng r with
      | (r', Err err) => (r', Err err)
      | (r', Ok ts) => (r', Ok (uint64 (roachpb.tsIndex ts + 1)))
      end.

(** [loadAppliedIndex], [setAppliedIndex] and [setLastIndex]. *)
Definition loadAppliedIndex (r : Replica) (eng : Engine) : result error Z :=
      let appliedIndex := if isInitialized r then raftInitialLogIndex else 0 in
      match MVCCGet eng (RaftAppliedIndexKey (roachpb.RangeID (desc r))) with
      | Some v => int64AppliedIndex ← GetInt v; Ok (uint64 int64AppliedIndex)
      | None => Ok appliedIndex
      end.

Definition setAppliedIndex (eng : Engine) (rangeID appliedIndex : Z) : Engine :=
      MVCCPut eng (RaftAppliedIndexKey rangeID) (VInt (int64 appliedIndex)).

Definition setLastIndex (eng : Engine) (rangeID lastIndex : Z) : Engine :=
      MVCCPut eng (RaftLastIndexKey rangeID) (VInt (int64 lastIndex)).

(** [loadLastIndex]. *)
Definition loadLastIndex (eng : Engine) (r : Replica) : Replica * result error Z :=
      match MVCCGet eng (RaftLastIndexKey (roachpb.RangeID (desc r))) with
      | Some v =>
          match GetInt v with
          | Err err => (r, Err err)
          | Ok int64LastIndex => (r, Ok (uint64 int64LastIndex))
          end
      | None =>
          match raftTruncatedState eng r with
          | (r', Err err) => (r', Err err)
          | (r', Ok lastEnt) => (r', Ok (roachpb.tsIndex lastEnt))
          end
      end.

(** [Replica.Append].  The engine, the replica and the returned error
        ([None] is nil).  The deletion loop runs [i] from [lastIndex + 1] to
        [prevLastIndex], over the integers: it is the source's uint64 loop as
        long as both indices are below [2^64 - 1], where [lastIndex + 1] does
        not wrap and [i <= prevLastIndex] ends. *)
Definition Append (eng : Engine) (r : Replica) (entries : list raftpb.Entry)
      : Engine * Replica * option error :=
      if (length entries =? 0)%nat then (eng, r, None)
      else
        let batch := NewBatch eng in
        let rangeID := roachpb.RangeID (desc r) in
        let batch :=
          foldl (fun b ent => MVCCPut b (RaftLogKey rangeID (raftpb.Index ent)) (VEntry ent))
                batch entries in
        match entries !! (length entries - 1)%nat with
        | None => (eng, r, Some ErrPanic)
        | Some lastEnt =>
            let lastIndex := raftpb.Index lastEnt in
            let prevLastIndex := storage.lastIndex r in
            let batch :=
              foldl (fun b i => MVCCDelete b (RaftLogKey rangeID i))
                    batch (seqZ (lastIndex + 1) (prevLastIndex - lastIndex)) in
            let batch := setLastIndex batch rangeID lastIndex in
            (Commit eng batch, setLastIndexCache r lastIndex, None)
        end.

(** [Replica.updateRangeInfo]. *)
Definition updateRangeInfo (r : Replica) : Replica * option error :=
      match GetZoneConfigForKey with
      | None => (r, None)
      | Some zoneFor =>
          match zoneFor (roachpb.StartKey (desc r)) with
          | Err err => (r, Some err)
          | Ok rangeMaxBytes => (SetMaxBytes r rangeMaxBytes, None)
          end
      end.

(** Modelled from the spec: [Replica.setDesc] is in replica.go, not under
        src/; it installs the descriptor and has the store process the
        update (section 4.B, step iv). *)
Definition setDesc (r : Replica) (d : RangeDescriptor) : Replica * option error :=
      let r := setDescWithoutProcessUpdate r d in
      (r, processRangeDescriptorUpdate r).

(** [Replica.ApplySnapshot]. *)
Definition ApplySnapshot (eng : Engine) (r : Replica) (snap : Snapshot)
      : Engine * Replica * option error :=
      match snapData snap with
      | None => (eng, r, Some ErrUnmarshal)
      | Some snapData =>
          let rangeID := roachpb.RangeID (desc r) in
          let hardStateKey := RaftHardStateKey rangeID in
          let hardState := MVCCGet eng hardStateKey in
          let desc := sdRangeDescriptor snapData in
          let batch := NewBatch eng in
          let batch := foldl Clear batch (replicaDataKeys desc eng) in
          let batch := foldl (fun b kv => Put b kv.1 kv.2) batch (KV snapData) in
          let batch :=
            match hardState with
            | None => MVCCDelete batch hardStateKey
            | Some hs => MVCCPut batch hardStateKey hs
            end in
          match loadLeaderLease batch (roachpb.RangeID desc) with
          | Err err => (eng, r, Some err)
          | Ok lease =>
              match newRangeStats (roachpb.RangeID desc) batch with
              | Err err => (eng, r, Some err)
              | Ok newStats =>
                  let r := setStats r newStats in
                  let index := raftpb.mdIndex (Metadata snap) in
                  let batch := setLastIndex batch rangeID index in
                  let eng := Commit eng batch in
                  let r := setLastIndexCache r index in
                  let r := setAppliedIndexCache r index in
                  match setDesc r desc with
                  | (r, Some err) => (eng, r, Some err)
                  | (r, None) =>
                      match updateRangeInfo r with
                      | (r, Some err) => (eng, r, Some err)
                      | (r, None) => (eng, setLease r lease, None)
                      end
                  end
              end
          end
      end.

(** [Replica.InitialState]: the replica, whose cached last index the
    defaults set, and the hard state and membership, or the error. *)
Definition InitialState (eng : Engine) (r : Replica)
  : Replica * result error (raftpb.HardState * raftpb.ConfState) :=
  let desc := desc r in
  match MVCCGetProto getHardState eng (RaftHardStateKey (roachpb.RangeID desc)) with
  | Err err => (r, Err err)
  | Ok found =>
      let hs_r :=
        match found with
        | Some hs => (hs, r)
        | None =>
            if isInitialized r
            then (raftpb.mkHardState raftInitialLogTerm 0 raftInitialLogIndex,
                  setLastIndexCache r raftInitialLogIndex)
            else (raftpb.mkHardState 0 0 0, setLastIndexCache r 0)
        end in
      let nodes :=
        if bool_decide (is_Some found) || isInitialized r
        then (fun rep => uint64 (roachpb.ReplicaID rep)) <$> roachpb.Replicas desc
        else [] in
      (hs_r.2, Ok (hs_r.1, {| raftpb.Nodes := nodes |}))
  end.

(** [Replica.SetHardState]. *)
Definition SetHardState (eng : Engine) (r : Replica) (st : raftpb.HardState) : Engine :=
  MVCCPut eng (RaftHardStateKey (roachpb.RangeID (desc r))) (VHardState st).

End ReplicaRaftStorage.

(** *** The store *)

(** The fields of [Store] these sources use.  [replicas] owns the replicas
      by range ID; [uninitReplicas] refers to members of [replicas] by their
      range ID, as the Go map holds the same pointers. *)
Record Store := mkStore {
    Ident : StoreIdent;
    engine_ : Engine;
    replicas : gmap Z Replica;
    uninitReplicas : gset Z
  }.

Definition setIdent (s : Store) (i : StoreIdent) : Store :=
    mkStore i (engine_ s) (replicas s) (uninitReplicas s).
Definition setEngine (s : Store) (e : Engine) : Store :=
    mkStore (Ident s) e (replicas s) (uninitReplicas s).

(** [keys.Addr] and [keys.LocalMax] (package keys, not under src/) are
      taken as given. *)
Class KeyAddressing := {
    Addr : Key → Key;
    LocalMax : Key
  }.

Section VerifyKeys.
Context `{KeyAddressing}.

Definition Less (k l : Key) : bool :=
      match bytes.Compare (keyBytes k) (keyBytes l) with Lt => true | _ => false end.

(** [verifyKeys]; [None] is the nil error. *)
Definition verifyKeys (start end_ : Key) (checkEndKey : bool) : option error :=
      if negb (Less start roachpb.KeyMax) then Some ErrStartKeyMax
      else if negb checkEndKey then
        if negb (length (keyBytes end_) =? 0)%nat then Some ErrEndKeySpecified
        else None
      else
        match end_ with
        | None => Some ErrEndKeyMissing
        | Some _ =>
            if Less roachpb.KeyMax end_ then Some ErrEndKeyMax
            else
              let sAddr := Addr start in
              let eAddr := Addr end_ in
              if negb (Less sAddr eAddr) then Some ErrEndNotGreater
              else if negb (bytes.Equal (keyBytes sAddr) (keyBytes start)) then
                if bytes.Equal (keyBytes eAddr) (keyBytes end_)
                then Some ErrStartLocalEndNot
                else None
              else if Less start LocalMax then Some ErrStartBelowLocalMax
              else None
        end.

End VerifyKeys.

(** [Store.Bootstrap].  Opening the in-memory engine and scanning it do not
      fail. *)
Definition Bootstrap (s : Store) (ident : StoreIdent) : Store * option error :=
    if negb (roachpb.identNodeID (Ident s) =? 0) then (s, Some ErrAlreadyBootstrapped)
    else
      let s := setIdent s ident in
      let kvs := Scan (engine_ s) 1 in
      if (0 <? length kvs)%nat then
        match MVCCGetProto getStoreIdent (engine_ s) StoreIdentKey with
        | Err _ => (s, Some ErrClusterIDUndetermined)
        | Ok (Some found) => (setIdent s found, Some ErrBelongsToCluster)
        | Ok None => (s, Some ErrInvalidContents)
        end
      else
        (setEngine s (MVCCPut (engine_ s) StoreIdentKey (VStoreIdent (Ident s))), None).

(** [Store.GetReplica]. *)
Definition GetReplica (s : Store) (rangeID : Z) : result error Replica :=
    match replicas s !! rangeID with
    | Some rng => Ok rng
    | None => Err ErrRangeNotFound
    end.

(** [Store.ReplicaIDForStore]. *)
Fixpoint replicaIDForStoreLoop (reps : list ReplicaDescriptor) (storeID : Z)
    : result error Z :=
    match reps with
    | [] => Err ErrStoreNotFound
    | rep :: reps' =>
        if roachpb.StoreID rep =? storeID then Ok (roachpb.ReplicaID rep)
        else replicaIDForStoreLoop reps' storeID
    end.

Definition ReplicaIDForStore (s : Store) (groupID storeID : Z) : result error Z :=
    r ← GetReplica s groupID;
    replicaIDForStoreLoop (roachpb.Replicas (desc r)) storeID.

(** [Store.addReplicaToRangeMap]. *)
Definition addReplicaToRangeMap (s : Store) (rng : Replica) : Store * option error :=
    let rangeID := roachpb.RangeID (desc rng) in
    match replicas s !! rangeID with
    | Some _ => (s, Some ErrRangeAlreadyExists)
    | None => (mkStore (Ident s) (engine_ s) (<[rangeID := rng]> (replicas s))
                       (uninitReplicas s), None)
    end.

Section GroupStorage.
(** [NewReplica] is in replica.go, not under src/. *)
Variable NewReplica : RangeDescriptor → Store → result error Replica.

(** [Store.GroupStorage]: the store afterwards and the group's storage,
        that is the replica, or the error. *)
Definition GroupStorage (s : Store) (groupID replicaID : Z)
      : Store * result error Replica :=
      match replicas s !! groupID with
      | Some r => (s, Ok r)
      | None =>
          let tombstoneKey := RaftTombstoneKey groupID in
          match MVCCGetProto getTombstone (engine_ s) tombstoneKey with
          | Err err => (s, Err err)
          | Ok found =>
              if match found with
                 | Some tombstone =>
                     negb (replicaID =? 0)
                     && (replicaID <? roachpb.NextReplicaID tombstone)
                 | None => false
                 end
              then (s, Err ErrGroupDeleted)
              else
                match NewReplica (roachpb.mkRangeDescriptor groupID None None [] 0) s with
                | Err err => (s, Err err)
                | Ok r =>
                    match addReplicaToRangeMap s r with
                    | (s, Some err) => (s, Err err)
                    | (s, None) =>
                        (mkStore (Ident s) (engine_ s) (replicas s)
                                 ({[ roachpb.RangeID (desc r) ]} ∪ uninitReplicas s),
                         Ok r)
                    end
                end
          end
      end.

End GroupStorage.

End storage.

(** ** multiraft: coalesced heartbeats *)

Module multiraft.
Import roachpb(ReplicaDescriptor, mkReplicaDescriptor).

Definition noGroup : Z := 0.

Record RaftMessageRequest := mkRequest {
    GroupID : Z;
    ToReplica : ReplicaDescriptor;
    FromReplica : ReplicaDescriptor;
    Message : raftpb.Message
  }.

(** The fields of [group] and [node] that message handling reads. *)
Record group := mkGroup {
    groupID : Z;
    replicaID : Z;
    committedTerm : Z;
    leader : ReplicaDescriptor;
    writing : bool;
    nodeIDs : list Z;
    waitForCallback : Z
  }.

Record node := mkNode {
    nodeNodeID : Z;
    groupIDs : gset Z
  }.

(** The [Storage] interface, as far as heartbeats use it. *)
Class Storage (St : Type) := {
    ReplicaIDForStore : St → Z → Z → result error Z
  }.

#[global] Instance Store_Storage : Storage storage.Store :=
    {| ReplicaIDForStore := storage.ReplicaIDForStore |}.

(** The calls made on the consensus library and on the transport, in
      order.  Their own errors are only logged by the functions below. *)
Inductive call : Type :=
  | Step (groupID : Z) (msg : raftpb.Message)
  | TransportSend (req : RaftMessageRequest).

Section State.
Context {St : Type} `{Storage St}.

Record state := mkState {
      nodeID : Z;
      storeID : Z;
      Storage_ : St;
      groups : gmap Z group;
      nodes : gmap Z node
    }.

(** [addNode] without a group: it only makes the node known. *)
Definition addNode (s : state) (id : Z) : state :=
      match nodes s !! id with
      | Some _ => s
      | None =>
          mkState (nodeID s) (storeID s) (Storage_ s) (groups s)
                  (<[id := mkNode id ∅]> (nodes s))
      end.

(** [sendMessage] called without a group, as coalesced heartbeats do:
        the To and From fields are node IDs, used as store IDs too. *)
Definition sendMessage (s : state) (msg : raftpb.Message) : state * list call :=
      let groupID := noGroup in
      let toReplica := mkReplicaDescriptor (int32 (raftpb.msgTo msg)) (int32 (raftpb.msgTo msg)) 0 in
      let fromReplica := mkReplicaDescriptor (int32 (raftpb.msgFrom msg)) (int32 (raftpb.msgFrom msg)) 0 in
      let s :=
        match nodes s !! roachpb.NodeID toReplica with
        | Some _ => s
        | None => addNode s (roachpb.NodeID toReplica)
        end in
      (s, [TransportSend (mkRequest groupID toReplica fromReplica msg)]).

(** The body of the loop over [originNode.groupIDs] in [fanoutHeartbeat]:
        the calls it makes for one group, or the panic of reading the leader
        of a group that is not in [s.groups]. *)
Definition fanoutToGroup (s : state) (req : RaftMessageRequest) (fromID groupID : Z)
      : result error (list call) :=
      match groups s !! groupID with
      | None => Err ErrPanic
      | Some g =>
          if negb (roachpb.NodeID (leader g) =? fromID) || (fromID =? nodeID s) then Ok []
          else
            match ReplicaIDForStore (Storage_ s) groupID (roachpb.StoreID (FromReplica req)) with
            | Err _ => Ok []
            | Ok fromRepID =>
                match ReplicaIDForStore (Storage_ s) groupID (roachpb.StoreID (ToReplica req)) with
                | Err _ => Ok []
                | Ok toRepID =>
                    Ok [Step groupID
                          (raftpb.mkMessage raftpb.MsgHeartbeat (uint64 toRepID) (uint64 fromRepID))]
                end
            end
      end.

Fixpoint fanoutLoop (s : state) (req : RaftMessageRequest) (fromID : Z)
        (ids : list Z) (done : list call) : list call * option error :=
      match ids with
      | [] => (done, None)
      | groupID :: ids' =>
          match fanoutToGroup s req fromID groupID with
          | Err err => (done, Some err)
          | Ok calls => fanoutLoop s req fromID ids' (done ++ calls)
          end
      end.

(** [fanoutHeartbeat]: the state afterwards, the calls made and the panic
        that cut it short, if any.  Go ranges over the map of group IDs in
        no fixed order; here it is the order of [elements]. *)
Definition fanoutHeartbeat (s : state) (req : RaftMessageRequest)
      : state * list call * option error :=
      let fromID := int32 (raftpb.msgFrom (Message req)) in
      let fanned :=
        match nodes s !! fromID with
        | Some originNode => fanoutLoop s req fromID (elements (groupIDs originNode)) []
        | None => ([], None)
        end in
      match fanned with
      | (calls, Some err) => (s, calls, Some err)
      | (calls, None) =>
          let '(s', sent) :=
            sendMessage s (raftpb.mkMessage raftpb.MsgHeartbeatResp
                             (raftpb.msgFrom (Message req)) (uint64 (nodeID s))) in
          (s', calls ++ sent, None)
      end.

(** The body of the loop in [fanoutHeartbeatResponse]. *)
Definition fanoutResponseToGroup (s : state) (req : RaftMessageRequest) (fromID groupID : Z)
  : result error (list call) :=
  match groups s !! groupID with
  | None => Err ErrPanic
  | Some g =>
      if negb (roachpb.NodeID (leader g) =? nodeID s) || (fromID =? nodeID s) then Ok []
      else
        match ReplicaIDForStore (Storage_ s) groupID (roachpb.StoreID (FromReplica req)) with
        | Err _ => Ok []
        | Ok fromRepID =>
            match ReplicaIDForStore (Storage_ s) groupID (roachpb.StoreID (ToReplica req)) with
            | Err _ => Ok []
            | Ok toRepID =>
                Ok [Step groupID
                      (raftpb.mkMessage raftpb.MsgHeartbeatResp (uint64 toRepID) (uint64 fromRepID))]
            end
        end
  end.

Fixpoint fanoutResponseLoop (s : state) (req : RaftMessageRequest) (fromID : Z)
    (ids : list Z) (done : list call) : list call * option error :=
  match ids with
  | [] => (done, None)
  | groupID :: ids' =>
      match fanoutResponseToGroup s req fromID groupID with
      | Err err => (done, Some err)
      | Ok calls => fanoutResponseLoop s req fromID ids' (done ++ calls)
      end
  end.

(** [fanoutHeartbeatResponse]: the calls made and the panic that cut it
    short, if any; the state is only read. *)
Definition fanoutHeartbeatResponse (s : state) (req : RaftMessageRequest)
  : list call * option error :=
  let fromID := int32 (raftpb.msgFrom (Message req)) in
  match nodes s !! fromID with
  | None => ([], None)
  | Some originNode => fanoutResponseLoop s req fromID (elements (groupIDs originNode)) []
  end.

(** [coalescedHeartbeat]: one heartbeat per known node other than this one;
    the nodes are visited in the order of [elements]. *)
Definition coalescedHeartbeat (s : state) : state * list call :=
  foldl (fun (acc : state * list call) (id : Z) =>
           if id =? nodeID acc.1 then acc
           else
             let sent :=
               sendMessage acc.1
                 (raftpb.mkMessage raftpb.MsgHeartbeat (uint64 id) (uint64 (nodeID acc.1))) in
             (sent.1, acc.2 ++ sent.2))
        (s, []) (elements (dom (nodes s))).

End State.
Arguments state : clear implicits.

End multiraft.

(** * Properties *)

(** ** The batch split rule *)

Section SplitProperties.
Import roachpb.
Context {R : Type} `{Request R}.

Lemma compatible_first (newFlags : Z) : compatible 0 newFlags = true.
Proof. reflexivity. Qed.

Lemma scanPart_bounds (rest : list R) :
    ∀ gFlags i, (i ≤ scanPart gFlags i rest ≤ i + length rest)%nat.
Proof.
    induction rest as [|union rest IH]; intros gFlags i; simpl; [lia|].
    destruct (compatible gFlags (flags union)); [|lia].
    specialize (IH (Z.lor gFlags (flags union)) (S i)). lia.
Qed.

(** The first request of a part is always accepted. *)
Lemma scanPart_first (union : R) (rest : list R) :
    (1 ≤ scanPart 0 0 (union :: rest) ≤ S (length rest))%nat.
Proof.
    simpl. pose proof (scanPart_bounds rest (Z.lor 0 (flags union)) 1). lia.
Qed.

(** Scanning the part that a scan cut off accepts all of it. *)
Lemma scanPart_take (rest : list R) :
    ∀ gFlags i,
      scanPart gFlags i (take (scanPart gFlags i rest - i) rest)
      = scanPart gFlags i rest.
Proof.
    induction rest as [|union rest IH]; intros gFlags i; simpl.
    - by rewrite Nat.sub_diag.
    - destruct (compatible gFlags (flags union)) eqn:Hc.
      + pose proof (scanPart_bounds rest (Z.lor gFlags (flags union)) (S i)) as Hb.
        replace (scanPart (Z.lor gFlags (flags union)) (S i) rest - i)%nat
          with (S (scanPart (Z.lor gFlags (flags union)) (S i) rest - S i)) by lia.
        simpl. rewrite Hc. apply IH.
      + by rewrite Nat.sub_diag.
Qed.

Lemma SplitLoop_nil (fuel : nat) (parts : list (list R)) :
    SplitLoop fuel [] parts = parts.
Proof. by destruct fuel. Qed.

(** The loop hands every request to exactly one part, in order, provided
      it may run once per request. *)
Lemma SplitLoop_concat (fuel : nat) :
    ∀ (Requests : list R) (parts : list (list R)),
      (length Requests ≤ fuel)%nat →
      concat (SplitLoop fuel Requests parts) = concat parts ++ Requests.
Proof.
    induction fuel as [|fuel IH]; intros Requests parts Hfuel.
    - destruct Requests; [|simpl in Hfuel; lia]. simpl. by rewrite app_nil_r.
    - destruct Requests as [|union rest]; [simpl; by rewrite app_nil_r|].
      cbn [SplitLoop]. unfold slice_to, slice_from.
      pose proof (scanPart_first union rest) as Hn.
      set (n := scanPart 0 0 (union :: rest)) in *.
      rewrite IH.
      + rewrite concat_app. simpl. rewrite app_nil_r, <- app_assoc.
        rewrite length_take_le by (simpl; lia).
        by rewrite take_drop.
      + rewrite length_drop, length_take_le by (simpl; lia). simpl in *. lia.
Qed.

(** More fuel than requests changes nothing: the loop has ended by then. *)
Lemma SplitLoop_fuel (fuel : nat) :
    ∀ (fuel' : nat) (Requests : list R) (parts : list (list R)),
      (length Requests ≤ fuel)%nat →
      (length Requests ≤ fuel')%nat →
      SplitLoop fuel Requests parts = SplitLoop fuel' Requests parts.
Proof.
    induction fuel as [|fuel IH]; intros fuel' Requests parts Hfuel Hfuel'.
    - destruct Requests; [|simpl in Hfuel; lia]. by rewrite !SplitLoop_nil.
    - destruct Requests as [|union rest]; [by rewrite !SplitLoop_nil|].
      destruct fuel' as [|fuel']; [simpl in Hfuel'; lia|].
      cbn [SplitLoop]. unfold slice_to, slice_from.
      pose proof (scanPart_first union rest) as Hn.
      set (n := scanPart 0 0 (union :: rest)) in *.
      assert (length (drop (length (take n (union :: rest))) (union :: rest)) ≤ length rest)%nat
        as Hrest.
      { rewrite length_drop, length_take_le by (simpl; lia). simpl. lia. }
      simpl in Hfuel, Hfuel'. apply IH; lia.
Qed.

(** A batch that one scan accepts whole is its own single part. *)
Lemma Split_whole (part : list R) :
    part ≠ [] → scanPart 0 0 part = length part → Split part = [part].
Proof.
    intros Hne Hscan. unfold Split.
    destruct part as [|union rest]; [done|].
    cbn [length SplitLoop]. unfold slice_to, slice_from. rewrite Hscan.
    rewrite firstn_all, drop_all. by rewrite SplitLoop_nil.
Qed.

(** A part, split again, is its own single part. *)
Lemma Split_part (Requests : list R) :
    Requests ≠ [] →
    Split (take (scanPart 0 0 Requests) Requests)
    = [take (scanPart 0 0 Requests) Requests].
Proof.
    intros Hne. destruct Requests as [|union rest]; [done|].
    pose proof (scanPart_first union rest) as Hn.
    pose proof (scanPart_take (union :: rest) 0 0) as Hscan.
    rewrite Nat.sub_0_r in Hscan.
    set (n := scanPart 0 0 (union :: rest)) in *.
    assert (length (take n (union :: rest)) = n) as Hlen.
    { rewrite length_take_le; [done|simpl; lia]. }
    apply Split_whole.
    - intros Hnil. rewrite Hnil in Hlen. simpl in Hlen. lia.
    - by rewrite Hscan, Hlen.
Qed.

Lemma SplitLoop_parts (fuel : nat) :
    ∀ (Requests : list R) (parts : list (list R)),
      Forall (fun part => Split part = [part]) parts →
      Forall (fun part => Split part = [part]) (SplitLoop fuel Requests parts).
Proof.
    induction fuel as [|fuel IH]; intros Requests parts Hparts; [done|].
    destruct Requests as [|union rest]; [done|].
    cbn [SplitLoop]. apply IH. apply Forall_app. split; [done|].
    apply Forall_singleton. unfold slice_to. by apply Split_part.
Qed.

(** C8.  Concatenating the sub-batches that [Split] produces gives back the
      batch's requests in their original order, and splitting any produced
      sub-batch again returns that sub-batch as its only part. *)
Theorem Split_concat_idempotent (Requests : list R) :
    concat (Split Requests) = Requests
    ∧ Forall (fun part => Split part = [part]) (Split Requests).
Proof.
    split.
    - unfold Split. by rewrite SplitLoop_concat.
    - unfold Split. by apply SplitLoop_parts.
Qed.

(** No sub-batch is empty. *)
Lemma Split_nonempty (Requests : list R) :
    Forall (fun part => part ≠ []) (Split Requests).
Proof.
    assert (Forall (fun part => Split part = [part]) (Split Requests)) as Hidem.
    { unfold Split. by apply SplitLoop_parts. }
    eapply Forall_impl; [exact Hidem|]. intros part Hpart ->. discriminate Hpart.
Qed.

End SplitProperties.

Section SplitExamples.
Import roachpb.

Definition key_k : Key := Some ["k"%byte].
Definition key_s : Key := Some ["s"%byte].
Definition value_v : list byte := ["v"%byte].

(** A read followed by a write is not one sub-batch: the write differs
      from the read in [isWrite], which is part of the mask. *)
Lemma Split_Get_Put_not_one_part :
    Split [GetRequest key_k; PutRequest key_k value_v]
    ≠ [[GetRequest key_k; PutRequest key_k value_v]].
Proof. vm_compute. discriminate. Qed.

(** C1, as the code has it.  [Get("k"), Put("k","v")] is split into the two
      sub-batches [Get("k")] and [Put("k","v")], and so is
      [AdminSplit("s"), Put("k","v")] into one request each. *)
Theorem Split_Get_Put_AdminSplit_Put :
    Split [GetRequest key_k; PutRequest key_k value_v]
    = [[GetRequest key_k]; [PutRequest key_k value_v]]
    ∧ Split [AdminSplitRequest key_s key_s; PutRequest key_k value_v]
      = [[AdminSplitRequest key_s key_s]; [PutRequest key_k value_v]].
Proof. split; reflexivity. Qed.

(** Leaving [isRead] out of the mask is what keeps a conditional put and a
      put together. *)
Example Split_CPut_Put :
    Split [ConditionalPutRequest key_k value_v None; PutRequest key_k value_v]
    = [[ConditionalPutRequest key_k value_v None; PutRequest key_k value_v]].
Proof. reflexivity. Qed.

(** [compatible] for requests that do not have to run alone: the masked
      flags agree. *)
Lemma compatible_mask (exFlags newFlags : Z) :
    exFlags ≠ 0 → Z.land newFlags isAlone = 0 →
    compatible exFlags newFlags = true ↔ Z.land mask exFlags = Z.land mask newFlags.
Proof.
    intros Hex Halone. unfold compatible.
    destruct (Z.eqb_spec exFlags 0) as [|_]; [done|].
    rewrite Halone. simpl. apply Z.eqb_eq.
Qed.

End SplitExamples.

(** ** Combining batch responses *)

Section CombineProperties.
Import roachpb.
Context {Resp Txn : Type} `{Response Resp} `{Transaction Txn}.

(** What a slot of the receiver holds after a combination with the slot
      [valRight] of the other batch. *)
Definition combinedSlot (valLeft valRight : Resp) : Resp :=
    if isCombinable valLeft && isCombinable valRight then
      match slotCombine valLeft valRight with
      | Ok combined => combined
      | Err _ => valLeft
      end
    else if isNoopResponse valLeft then valRight
    else valLeft.

Definition slotsCombine (left right : list Resp) : Prop :=
    ∀ (i : nat) (valLeft valRight : Resp),
      left !! i = Some valLeft → right !! i = Some valRight →
      isCombinable valLeft && isCombinable valRight = true →
      is_ok (slotCombine valLeft valRight) = true.

Lemma combineLoop_ok (orig right : list Resp) (n : nat) :
    ∀ (i : nat) (left : list Resp),
      length left = length orig → length right = length orig →
      (i + n = length orig)%nat →
      (∀ j, (i ≤ j)%nat → left !! j = orig !! j) →
      slotsCombine orig right →
      ∃ slots,
        combineLoop n i left right = (slots, None)
        ∧ length slots = length orig
        ∧ (∀ j, (j < i)%nat → slots !! j = left !! j)
        ∧ (∀ j valLeft valRight, (i ≤ j)%nat →
             orig !! j = Some valLeft → right !! j = Some valRight →
             slots !! j = Some (combinedSlot valLeft valRight)).
Proof.
    induction n as [|n IH]; intros i left Hleft Hright Hin Hsame Hok.
    - exists left. simpl. split; [done|]. split; [done|]. split; [done|].
      intros j valLeft valRight Hj Hl _. apply lookup_lt_Some in Hl. lia.
    - cbn [combineLoop].
      destruct (lookup_lt_is_Some_2 orig i) as [valLeft HvalLeft]; [lia|].
      destruct (lookup_lt_is_Some_2 right i) as [valRight HvalRight]; [lia|].
      rewrite (Hsame i) by lia. rewrite HvalLeft, HvalRight.
      assert (∀ x : Resp,
        ∃ slots,
          combineLoop n (S i) (<[i := x]> left) right = (slots, None)
          ∧ length slots = length orig
          ∧ (∀ j, (j < S i)%nat → slots !! j = <[i := x]> left !! j)
          ∧ (∀ j valLeft valRight, (S i ≤ j)%nat →
               orig !! j = Some valLeft → right !! j = Some valRight →
               slots !! j = Some (combinedSlot valLeft valRight))) as Hset.
      { intros x. apply IH; [by rewrite length_insert|done|lia| |done].
        intros j Hj. rewrite list_lookup_insert_ne by lia. apply Hsame. lia. }
      assert (∀ x : Resp, x = combinedSlot valLeft valRight →
        ∀ slots,
          length slots = length orig
          ∧ (∀ j, (j < S i)%nat → slots !! j = <[i := x]> left !! j)
          ∧ (∀ j valLeft valRight, (S i ≤ j)%nat →
               orig !! j = Some valLeft → right !! j = Some valRight →
               slots !! j = Some (combinedSlot valLeft valRight)) →
          length slots = length orig
          ∧ (∀ j, (j < i)%nat → slots !! j = left !! j)
          ∧ (∀ j valLeft valRight, (i ≤ j)%nat →
               orig !! j = Some valLeft → right !! j = Some valRight →
               slots !! j = Some (combinedSlot valLeft valRight))) as Hstep.
      { intros x Hx slots (Hlen & Hbelow & Habove). split; [done|]. split.
        - intros j Hj. rewrite Hbelow by lia. apply list_lookup_insert_ne. lia.
        - intros j l r Hj Hl Hr. destruct (decide (j = i)) as [->|Hne].
          + rewrite Hbelow by lia. rewrite list_lookup_insert_eq by lia.
            rewrite HvalLeft in Hl. rewrite HvalRight in Hr. congruence.
          + apply Habove; [lia|done|done]. }
      unfold combinedSlot in Hstep.
      destruct (isCombinable valLeft && isCombinable valRight) eqn:Hboth.
      + specialize (Hok i valLeft valRight HvalLeft HvalRight Hboth).
        destruct (slotCombine valLeft valRight) as [combined|err]; [|done].
        destruct (Hset combined) as (slots & Hrun & Hrest).
        exists slots. split; [done|]. by apply (Hstep combined).
      + destruct (isNoopResponse valLeft).
        * destruct (Hset valRight) as (slots & Hrun & Hrest).
          exists slots. split; [done|]. by apply (Hstep valRight).
        * destruct (Hset valLeft) as (slots & Hrun & Hrest).
          rewrite list_insert_id in Hrun by (by rewrite Hsame by lia).
          exists slots. split; [done|]. by apply (Hstep valLeft).
Qed.

(** C10, as the code has it.  [Combine] fails when the two responses have
      different numbers of slots.  With equal numbers, and every pair of
      combinable slots combining, it succeeds: each slot of the receiver is combined in place
      when both sides are combinable, otherwise is replaced by the other
      batch's slot when it is a NoopResponse, otherwise is kept; and the
      receiver's timestamp is forwarded to the other batch's. *)
Theorem Combine_slots_timestamp (br otherBatch : BatchResponse Resp Txn) :
    (length (Responses otherBatch) ≠ length (Responses br) →
       (Combine br otherBatch).2 = Some ErrDifferentLength)
    ∧ (length (Responses otherBatch) = length (Responses br) →
       slotsCombine (Responses br) (Responses otherBatch) →
       ∃ combined,
         Combine br otherBatch = (combined, None)
         ∧ Timestamp_ combined = Forward (Timestamp_ br) (Timestamp_ otherBatch)
         ∧ length (Responses combined) = length (Responses br)
         ∧ ∀ i valLeft valRight,
             Responses br !! i = Some valLeft →
             Responses otherBatch !! i = Some valRight →
             Responses combined !! i = Some (combinedSlot valLeft valRight)).
Proof.
    split.
    - intros Hne. unfold Combine.
      destruct (Nat.eqb_spec (length (Responses otherBatch)) (length (Responses br))); done.
    - intros Hlen Hok. unfold Combine.
      rewrite Hlen, Nat.eqb_refl. simpl.
      destruct (combineLoop_ok (Responses br) (Responses otherBatch)
                  (length (Responses br)) 0 (Responses br))
        as (slots & Hrun & Hslots & _ & Heach); [done|done|lia|done|done|].
      rewrite Hrun. eexists. split; [done|]. simpl.
      split; [done|]. split; [done|]. intros i valLeft valRight Hl Hr.
      apply Heach; [lia|done|done].
Qed.

(** A slot whose own Combine fails makes [Combine] return that error. *)
Lemma combineLoop_first_error (right : list Resp) (n : nat) :
    ∀ (i : nat) (left : list Resp) (valLeft valRight : Resp) (err : error),
      n ≠ 0%nat →
      left !! i = Some valLeft → right !! i = Some valRight →
      isCombinable valLeft && isCombinable valRight = true →
      slotCombine valLeft valRight = Err err →
      combineLoop n i left right = (left, Some err).
Proof.
    intros i left valLeft valRight err Hn Hl Hr Hboth Herr.
    destruct n; [done|]. cbn [combineLoop]. by rewrite Hl, Hr, Hboth, Herr.
Qed.

End CombineProperties.

(** ** The replica's raft storage *)

Section StorageExamples.
Import keys engine storage.

(** Collaborators that never fail: protobuf entry sizes, no lease, empty
      statistics, no gossiped configuration yet. *)
Definition quietCollaborators : Collaborators := {|
    entrySize := raftpb.Size;
    loadLeaderLease := fun _ _ => Ok None;
    newRangeStats := fun _ _ => Ok (roachpb.mkStats 0 0 0);
    processRangeDescriptorUpdate := fun _ => None;
    GetZoneConfigForKey := None
  |}.

Definition exampleReplicas : list roachpb.ReplicaDescriptor :=
    [roachpb.mkReplicaDescriptor 1 1 1; roachpb.mkReplicaDescriptor 2 2 2;
     roachpb.mkReplicaDescriptor 3 3 3].

(** Range 1 spans ["a", "z"). *)
Definition exampleDesc : roachpb.RangeDescriptor :=
    roachpb.mkRangeDescriptor 1 (Some ["a"%byte]) (Some ["z"%byte]) exampleReplicas 4.

(** An initialized replica of range 1 whose log is empty: [last_index = 10]
      and truncated state (10, 5). *)
Definition freshReplica : Replica :=
    mkReplica exampleDesc 10 10 None (roachpb.mkStats 0 0 0) None 0.

Definition freshEngine : Engine :=
    {[ RaftTruncatedStateKey 1 := VTruncatedState (roachpb.mkTruncatedState 10 5) ]}.

Definition entry11 : raftpb.Entry := raftpb.mkEntry 5 11 raftpb.EntryNormal None.
Definition entry12 : raftpb.Entry := raftpb.mkEntry 5 12 raftpb.EntryNormal None.

(** The engine and replica after appending entries 11 and 12. *)
Definition appendedEngine : Engine :=
    (Append freshEngine freshReplica [entry11; entry12]).1.1.
Definition appendedReplica : Replica :=
    (Append freshEngine freshReplica [entry11; entry12]).1.2.

(** A replica that voted in term 7, and a snapshot at index 20 whose data
      carries the sender's own hard state, last index and applied index. *)
Definition votedEngine : Engine :=
    <[ RaftHardStateKey 1 := VHardState (raftpb.mkHardState 7 3 10) ]> appendedEngine.

Definition snapshotAt20 : Snapshot :=
    mkSnapshot
      (Some (mkSnapshotData exampleDesc
               [(RaftHardStateKey 1, VHardState (raftpb.mkHardState 8 1 20));
                (RaftAppliedIndexKey 1, VInt 20);
                (RaftLastIndexKey 1, VInt 25);
                (UserKey ["b"%byte] 1 0, VBytes ["v"%byte])]))
      (raftpb.mkSnapshotMetadata [1; 2; 3] 20 8).

(** The same snapshot without any data. *)
Definition emptySnapshotAt20 : Snapshot :=
    mkSnapshot (Some (mkSnapshotData exampleDesc []))
               (raftpb.mkSnapshotMetadata [1; 2; 3] 20 8).

End StorageExamples.

Section StorageProperties.
Import keys engine storage.
Context `{Collaborators}.

Lemma uint64_int64 (z : Z) : uint64 (int64 z) = uint64 z.
Proof.
    unfold uint64, int64.
    rewrite Zminus_mod, Zmod_mod, <- Zminus_mod. f_equal. lia.
Qed.

Lemma uint64_small (z : Z) : 0 ≤ z < 2 ^ 64 → uint64 z = z.
Proof. intros Hz. unfold uint64. by apply Z.mod_small. Qed.

(** C9.  [Append] with no entries returns nil at once and changes nothing:
      the engine (log keys and the persisted last index among them) and the
      replica with its cached [lastIndex] are as before. *)
Theorem Append_empty_noop (eng : Engine) (r : Replica) :
    Append eng r [] = (eng, r, None).
Proof. reflexivity. Qed.

(** An empty range of indices holds no entries. *)
Lemma logRange_empty (eng : Engine) (rangeID lo : Z) : logRange eng rangeID lo lo = [].
Proof.
    unfold logRange.
    assert (omap (isLogKV rangeID lo lo) (map_to_list eng) = []) as ->; [|done].
    assert (∀ kv, isLogKV rangeID lo lo kv = None) as Hnone.
    { intros kv. unfold isLogKV. destruct kv.1; try done. case_bool_decide; [lia|done]. }
    induction (map_to_list eng) as [|kv kvs IH]; [done|].
    cbn [omap list_omap]. by rewrite Hnone.
Qed.

(** [Entries(lo, lo, 0)] is the empty list. *)
Lemma Entries_empty_range (eng : Engine) (r : Replica) (lo : Z) :
    Entries eng r lo lo 0 = Ok [].
Proof.
    unfold Entries. rewrite logRange_empty. simpl.
    by rewrite Z.sub_diag.
Qed.

(** *** Applying a snapshot *)

Lemma foldl_Clear_lookup (ks : list EngineKey) :
    ∀ (eng : Engine) (k : EngineKey),
      foldl Clear eng ks !! k = if bool_decide (k ∈ ks) then None else eng !! k.
Proof.
    induction ks as [|k' ks IH]; intros eng k; cbn [foldl].
    - by rewrite bool_decide_eq_false_2 by apply not_elem_of_nil.
    - rewrite IH. unfold Clear.
      destruct (decide (k = k')) as [->|Hne].
      + rewrite lookup_delete_eq.
        rewrite (bool_decide_eq_true_2 (k' ∈ k' :: ks)) by apply list_elem_of_here.
        by case_bool_decide.
      + rewrite lookup_delete_ne by done.
        apply (f_equal (fun b : bool => if b then None else eng !! k)).
        apply bool_decide_ext. rewrite elem_of_cons.
        split; [by right|by intros [?|?]].
Qed.

Lemma replicaDataKeys_elem (d : roachpb.RangeDescriptor) (eng : Engine) (k : EngineKey) :
    k ∈ replicaDataKeys d eng ↔ isReplicaData d k = true ∧ is_Some (eng !! k).
Proof.
    unfold replicaDataKeys. rewrite list_elem_of_filter, list_elem_of_fmap.
    split.
    - intros (Hdata & [k' v] & -> & Hin). apply elem_of_map_to_list in Hin.
      split; [done|]. by exists v.
    - intros (Hdata & v & Hv). split; [done|].
      exists (k, v). split; [done|]. by apply elem_of_map_to_list.
Qed.

(** Clearing the replica's data removes exactly the keys of its span. *)
Lemma cleared_lookup (d : roachpb.RangeDescriptor) (eng : Engine) (k : EngineKey) :
    foldl Clear eng (replicaDataKeys d eng) !! k
    = if isReplicaData d k then None else eng !! k.
Proof.
    rewrite foldl_Clear_lookup. case_bool_decide as Hin.
    - apply replicaDataKeys_elem in Hin as [-> _]. done.
    - destruct (isReplicaData d k) eqn:Hdata; [|done].
      destruct (eng !! k) as [v|] eqn:Hv; [|done].
      exfalso. apply Hin, replicaDataKeys_elem. split; [done|]. by exists v.
Qed.

Lemma foldl_Put_lookup (kvs : list (EngineKey * Value)) :
    ∀ (eng : Engine) (k : EngineKey),
      foldl (fun b kv => Put b kv.1 kv.2) eng kvs !! k = writtenValue k (eng !! k) kvs.
Proof.
    unfold writtenValue.
    induction kvs as [|kv kvs IH]; intros eng k; simpl; [done|].
    rewrite IH. unfold Put. case_bool_decide as Hk.
    - by rewrite <- Hk, lookup_insert_eq.
    - by rewrite lookup_insert_ne.
Qed.

Lemma writtenValue_Some (k : EngineKey) (kvs : list (EngineKey * Value)) :
    ∀ (before before' : option Value) (v : Value),
      writtenValue k before kvs = Some v → before = None →
      writtenValue k before' kvs = Some v.
Proof.
    unfold writtenValue.
    induction kvs as [|kv kvs IH] using rev_ind; intros before before' v Hv ->.
    - done.
    - rewrite foldl_app in *. simpl in *. case_bool_decide; [done|].
      by eapply IH.
Qed.

(** What [ApplySnapshot] leaves in the engine when it succeeds: the span of
      the snapshot's range is replaced by the snapshot's data, then the hard
      state is put back and the last index is written. *)
Lemma ApplySnapshot_engine (eng eng' : Engine) (r r' : Replica) (snap : Snapshot) :
    ApplySnapshot eng r snap = (eng', r', None) →
    ∃ data,
      snapData snap = Some data
      ∧ eng' =
          setLastIndex
            (match MVCCGet eng (RaftHardStateKey (roachpb.RangeID (desc r))) with
             | None => MVCCDelete
             | Some hs => fun b k => MVCCPut b k hs
             end
               (foldl (fun b kv => Put b kv.1 kv.2)
                  (foldl Clear eng (replicaDataKeys (sdRangeDescriptor data) eng))
                  (KV data))
               (RaftHardStateKey (roachpb.RangeID (desc r))))
            (roachpb.RangeID (desc r)) (raftpb.mdIndex (Metadata snap))
      ∧ lastIndex r' = raftpb.mdIndex (Metadata snap)
      ∧ appliedIndex r' = raftpb.mdIndex (Metadata snap)
      ∧ desc r' = sdRangeDescriptor data.
Proof.
    unfold ApplySnapshot. intros Happly.
    destruct (snapData snap) as [data|]; [|done].
    exists data. split; [done|].
    destruct (MVCCGet eng _) as [hs|];
      (destruct (loadLeaderLease _ _) as [newLease|]; [|done]);
      (destruct (newRangeStats _ _) as [newStats|]; [|done]);
      unfold setDesc in Happly;
      (destruct (processRangeDescriptorUpdate _); [done|]);
      unfold updateRangeInfo in Happly;
      (destruct GetZoneConfigForKey as [zoneFor|];
         [destruct (zoneFor _) as [rangeMaxBytes|]; [|done]|]);
      by injection Happly as <- <-.
Qed.

(** C2, as the code has it.  After a successful [ApplySnapshot] the hard
      state persisted before is still there unchanged (and still absent if it
      was absent), and the persisted last index and the cached last and
      applied indices are the snapshot's [Metadata.Index].  The persisted
      applied index is not written by [ApplySnapshot]: it reads as that index
      when the snapshot's data carries it. *)
Theorem ApplySnapshot_HardState_indices
      (eng eng' : Engine) (r r' : Replica) (snap : Snapshot) :
    ApplySnapshot eng r snap = (eng', r', None) →
    0 ≤ raftpb.mdIndex (Metadata snap) < 2 ^ 64 →
    let rangeID := roachpb.RangeID (desc r) in
    let index := raftpb.mdIndex (Metadata snap) in
    MVCCGet eng' (RaftHardStateKey rangeID) = MVCCGet eng (RaftHardStateKey rangeID)
    ∧ loadLastIndex eng' r = (r, Ok index)
    ∧ lastIndex r' = index
    ∧ appliedIndex r' = index
    ∧ (∀ data, snapData snap = Some data →
         writtenValue (RaftAppliedIndexKey rangeID) None (KV data) = Some (VInt (int64 index)) →
         loadAppliedIndex r eng' = Ok index).
Proof.
    intros Happly Hindex rangeID index.
    apply ApplySnapshot_engine in Happly as (data & Hdata & -> & Hlast & Happlied & _).
    fold rangeID index. unfold MVCCGet, setLastIndex, MVCCPut.
    split; [|split; [|split; [done|split; [done|]]]].
    - rewrite lookup_insert_ne by done.
      destruct (eng !! RaftHardStateKey rangeID) as [hs|].
      + apply lookup_insert_eq.
      + apply lookup_delete_eq.
    - unfold loadLastIndex, MVCCGet. fold rangeID. rewrite lookup_insert_eq. simpl.
      by rewrite uint64_int64, uint64_small.
    - intros data' Hdata' Hcarried. rewrite Hdata in Hdata'. injection Hdata' as <-.
      unfold loadAppliedIndex, MVCCGet. fold rangeID.
      rewrite lookup_insert_ne by done.
      assert (∀ b : Engine,
        (match eng !! RaftHardStateKey rangeID with
         | None => MVCCDelete
         | Some hs => fun b k => MVCCPut b k hs
         end b (RaftHardStateKey rangeID)) !! RaftAppliedIndexKey rangeID
        = b !! RaftAppliedIndexKey rangeID) as ->.
      { intros b. destruct (eng !! RaftHardStateKey rangeID).
        - unfold MVCCPut. by rewrite lookup_insert_ne.
        - unfold MVCCDelete. by rewrite lookup_delete_ne. }
      rewrite foldl_Put_lookup.
      erewrite writtenValue_Some; [|exact Hcarried|done]. simpl.
      by rewrite uint64_int64, uint64_small.
Qed.

End StorageProperties.

Section StorageScenarios.
Import keys engine storage.

(** Scenario E3: on a fresh range with [last_index = 10] and truncated
      state (10, 5), [Entries(11, 11, 0)] is empty, [Term(10)] is 5 and
      [Term(9)] is unavailable; after appending entries 11 and 12 the last
      index is 12 and [Entries(11, 13, 0)] has both. *)
Example fresh_range_log :
    @Entries quietCollaborators freshEngine freshReplica 11 11 0 = Ok []
    ∧ (@Term quietCollaborators freshEngine freshReplica 10).2 = Ok 5
    ∧ (@Term quietCollaborators freshEngine freshReplica 9).2 = Err ErrUnavailable
    ∧ (Append freshEngine freshReplica [entry11; entry12]).2 = None
    ∧ LastIndex appendedReplica = 12
    ∧ @Entries quietCollaborators appendedEngine appendedReplica 11 13 0
      = Ok [entry11; entry12].
Proof. repeat split; vm_compute; reflexivity. Qed.

(** C3, where the code departs from it.  The log holds entries 11 and 12,
      six encoded bytes each, and nothing at index 13.  [Entries(11, 14, 12)]
      finds two of the three entries asked for; the scan was never stopped by
      the size limit, since the accumulated size 12 does not exceed
      [maxBytes = 12]; yet the call succeeds with the two entries instead of
      failing with Unavailable.  One byte more of allowance and it fails. *)
Theorem Entries_short_at_exact_size :
    length (logRange appendedEngine 1 11 14) = 2%nat
    ∧ raftpb.Size entry11 + raftpb.Size entry12 = 12
    ∧ @Entries quietCollaborators appendedEngine appendedReplica 11 14 12
      = Ok [entry11; entry12]
    ∧ @Entries quietCollaborators appendedEngine appendedReplica 11 14 13
      = Err ErrUnavailable
    ∧ @Entries quietCollaborators appendedEngine appendedReplica 11 14 0
      = Err ErrUnavailable.
Proof. repeat split; vm_compute; reflexivity. Qed.

(** The same check lets a compacted prefix go unnoticed: asked for
      [9, 13) with a limit the scan does exceed, the entries 11 and 12 come
      back although 9 and 10 are gone. *)
Example Entries_skips_compacted_prefix :
    @Entries quietCollaborators appendedEngine appendedReplica 9 13 6
    = Ok [entry11; entry12].
Proof. vm_compute. reflexivity. Qed.

(** Scenario E4, with a snapshot that carries the sender's hard state
      (term 8, vote 1): the receiver keeps its own (term 7, vote 3). *)
Lemma ApplySnapshot_HardState_indices_witness :
    let applied := @ApplySnapshot quietCollaborators votedEngine appendedReplica snapshotAt20 in
    applied.2 = None
    ∧ MVCCGet applied.1.1 (RaftHardStateKey 1) = Some (VHardState (raftpb.mkHardState 7 3 10))
    ∧ loadLastIndex applied.1.1 appendedReplica = (appendedReplica, Ok 20)
    ∧ lastIndex applied.1.2 = 20
    ∧ appliedIndex applied.1.2 = 20
    ∧ loadAppliedIndex appendedReplica applied.1.1 = Ok 20.
Proof.
    intros applied.
    assert (applied.2 = None) as Hok by (vm_compute; reflexivity).
    destruct (@ApplySnapshot_HardState_indices quietCollaborators
                votedEngine applied.1.1 appendedReplica applied.1.2 snapshotAt20)
      as (Hhs & Hpersisted & Hlast & Happlied & Hcarried).
    - fold applied. destruct applied as [[eng' r'] err]. simpl in Hok. by rewrite Hok.
    - simpl. lia.
    - split; [vm_compute; reflexivity|].
      split; [transitivity (MVCCGet votedEngine (RaftHardStateKey 1));
                [exact Hhs|vm_compute; reflexivity]|].
      split; [exact Hpersisted|]. split; [exact Hlast|]. split; [exact Happlied|].
      apply (Hcarried _ eq_refl). vm_compute. reflexivity.
Defined.

(** C2, refuted as stated.  Scenario E4 with a snapshot at index 20 whose
      data carries no applied index: [ApplySnapshot] succeeds, the persisted
      last index and both cached indices are 20, but no applied index is
      persisted, and the replica reads back the initial one, 10. *)
Lemma ApplySnapshot_applied_index_not_persisted :
    let applied := @ApplySnapshot quietCollaborators votedEngine appendedReplica emptySnapshotAt20 in
    raftpb.mdIndex (Metadata emptySnapshotAt20) = 20
    ∧ applied.2 = None
    ∧ MVCCGet applied.1.1 (RaftHardStateKey 1) = Some (VHardState (raftpb.mkHardState 7 3 10))
    ∧ (loadLastIndex applied.1.1 applied.1.2).2 = Ok 20
    ∧ lastIndex applied.1.2 = 20
    ∧ appliedIndex applied.1.2 = 20
    ∧ MVCCGet applied.1.1 (RaftAppliedIndexKey 1) = None
    ∧ loadAppliedIndex applied.1.2 applied.1.1 = Ok 10.
Proof. repeat split; vm_compute; reflexivity. Qed.

End StorageScenarios.

(** ** The store *)

Section StoreExamples.
Import keys engine storage.

Definition noIdent : roachpb.StoreIdent := roachpb.mkStoreIdent [] 0 0.

Definition clusterA : list byte := ["A"%byte].

(** A store whose engine already holds the ident of cluster A. *)
Definition identifiedStore : Store :=
    mkStore noIdent
            {[ StoreIdentKey := VStoreIdent (roachpb.mkStoreIdent clusterA 1 1) ]}
            ∅ ∅.

(** A store without replicas whose engine holds the tombstone of range 7
      with [NextReplicaID = 5]. *)
Definition tombstonedStore : Store :=
    mkStore (roachpb.mkStoreIdent clusterA 1 1)
            {[ RaftTombstoneKey 7 := VTombstone (roachpb.mkTombstone 5) ]}
            ∅ ∅.

(** A [NewReplica] that always succeeds with an empty replica. *)
Definition newPlaceholder (d : roachpb.RangeDescriptor) (s : Store)
    : result error Replica :=
    Ok (mkReplica d 0 0 None (roachpb.mkStats 0 0 0) None 0).

(** Modelled from the spec: [keys.Addr] and [keys.LocalMax] are in package
      keys, not under src/.  Section 3: the key space has a reserved local
      prefix for per-range metadata, each key maps to an address key, and
      [LocalMax] separates the local keys from the user keys.  One layout that
      fits: a range-local key is the local range prefix, the address key, a
      two-byte terminator and a suffix. *)
Definition localPrefix : list byte := [x00; x00; x00].
Definition LocalRangePrefix : list byte := localPrefix ++ ["k"%byte].
Definition localMax : list byte := [x00; x00; x01].

Definition MakeRangeKey (addr suffix : list byte) : list byte :=
    LocalRangePrefix ++ addr ++ [x00; x01] ++ suffix.

Fixpoint decodeAddr (k : list byte) : list byte :=
    match k with
    | [] => []
    | b :: k' =>
        match b, k' with
        | x00, x01 :: _ => []
        | _, _ => b :: decodeAddr k'
        end
    end.

Definition exampleAddr (k : roachpb.Key) : roachpb.Key :=
    if bytes.HasPrefix (roachpb.keyBytes k) LocalRangePrefix
    then Some (decodeAddr (drop (length LocalRangePrefix) (roachpb.keyBytes k)))
    else k.

Definition exampleAddressing : KeyAddressing :=
    {| Addr := exampleAddr; LocalMax := Some localMax |}.


End StoreExamples.

Section StoreProperties.
Import keys engine storage.

(** *** Tombstones *)

(** With replica ID 0, the one [createGroup] passes at startup, a tombstone
      does not stop the creation: a placeholder replica is added. *)
Lemma GroupStorage_ignores_tombstone_for_zero :
    replicas tombstonedStore !! 7 = None
    ∧ MVCCGetProto getTombstone (engine_ tombstonedStore) (RaftTombstoneKey 7)
      = Ok (Some (roachpb.mkTombstone 5))
    ∧ 0 < roachpb.NextReplicaID (roachpb.mkTombstone 5)
    ∧ (GroupStorage newPlaceholder tombstonedStore 7 0).2 ≠ Err ErrGroupDeleted
    ∧ is_ok (GroupStorage newPlaceholder tombstonedStore 7 0).2 = true
    ∧ 7 ∈ uninitReplicas (GroupStorage newPlaceholder tombstonedStore 7 0).1.
Proof.
    split; [reflexivity|]. split; [reflexivity|]. split; [reflexivity|].
    split; [vm_compute; discriminate|]. split; [reflexivity|].
    apply (bool_decide_unpack _). vm_compute. exact I.
Qed.

(** C4, as the code has it.  When the store has no replica of the range
      and the engine holds a tombstone whose [NextReplicaID] is greater than
      the requested replica ID, and that ID is not 0, [GroupStorage] fails
      with GroupDeleted and leaves the store as it was. *)
Theorem GroupStorage_tombstone
      (NewReplica : roachpb.RangeDescriptor → Store → result error Replica)
      (s : Store) (groupID replicaID : Z) (tombstone : roachpb.RaftTombstone) :
    replicas s !! groupID = None →
    MVCCGetProto getTombstone (engine_ s) (RaftTombstoneKey groupID) = Ok (Some tombstone) →
    replicaID ≠ 0 →
    replicaID < roachpb.NextReplicaID tombstone →
    GroupStorage NewReplica s groupID replicaID = (s, Err ErrGroupDeleted).
Proof.
    intros Hnone Htomb Hnonzero Hless. unfold GroupStorage.
    rewrite Hnone, Htomb.
    destruct (Z.eqb_spec replicaID 0) as [|_]; [done|].
    destruct (Z.ltb_spec replicaID (roachpb.NextReplicaID tombstone)) as [_|]; [done|lia].
Qed.

Lemma GroupStorage_tombstone_witness :
    GroupStorage newPlaceholder tombstonedStore 7 3 = (tombstonedStore, Err ErrGroupDeleted).
Proof.
    apply (GroupStorage_tombstone newPlaceholder tombstonedStore 7 3 (roachpb.mkTombstone 5)).
    - reflexivity.
    - reflexivity.
    - lia.
    - simpl. lia.
Defined.

(** An existing replica is returned whatever the tombstone says, and
      without a tombstone a replica is created. *)
Lemma GroupStorage_existing
      (NewReplica : roachpb.RangeDescriptor → Store → result error Replica)
      (s : Store) (groupID replicaID : Z) (r : Replica) :
    replicas s !! groupID = Some r →
    GroupStorage NewReplica s groupID replicaID = (s, Ok r).
Proof. intros Hr. unfold GroupStorage. by rewrite Hr. Qed.

(** *** Bootstrap *)

Lemma Scan_nonempty (eng : Engine) :
    (0 <? length (Scan eng 1))%nat = negb (bool_decide (eng = ∅)).
Proof.
    unfold Scan. destruct (map_to_list eng) as [|kv kvs] eqn:Hlist.
    - apply map_to_list_empty_iff in Hlist. by rewrite bool_decide_eq_true_2.
    - rewrite bool_decide_eq_false_2; [done|].
      intros ->. by rewrite map_to_list_empty in Hlist.
Qed.

(** An engine that already holds this cluster's ident is refused. *)
Lemma Bootstrap_refuses_matching_ident :
    MVCCGetProto getStoreIdent (engine_ identifiedStore) StoreIdentKey
    = Ok (Some (roachpb.mkStoreIdent clusterA 1 1))
    ∧ roachpb.ClusterID (roachpb.mkStoreIdent clusterA 1 1)
      = roachpb.ClusterID (roachpb.mkStoreIdent clusterA 1 1)
    ∧ (Bootstrap identifiedStore (roachpb.mkStoreIdent clusterA 1 1)).2
      = Some ErrBelongsToCluster.
Proof. repeat split; vm_compute; reflexivity. Qed.

(** C5, as the code has it.  [Bootstrap] succeeds exactly when the store
      has no node ID yet and the engine is completely empty, and then the
      engine holds the new ident and nothing else; in every other case it
      returns an error and the engine is as before. *)
Theorem Bootstrap_only_on_empty_engine (s : Store) (ident : roachpb.StoreIdent) :
    ((Bootstrap s ident).2 = None
       ↔ roachpb.identNodeID (Ident s) = 0 ∧ engine_ s = ∅)
    ∧ ((Bootstrap s ident).2 = None →
         engine_ (Bootstrap s ident).1 = {[ StoreIdentKey := VStoreIdent ident ]})
    ∧ ((Bootstrap s ident).2 ≠ None →
         engine_ (Bootstrap s ident).1 = engine_ s).
Proof.
    unfold Bootstrap.
    destruct (Z.eqb_spec (roachpb.identNodeID (Ident s)) 0) as [Hnode|Hnode]; simpl.
    - rewrite Scan_nonempty. case_bool_decide as Hempty; simpl.
      + rewrite Hempty. split; [done|]. split; [|done].
        intros _. unfold MVCCPut. by rewrite insert_empty.
      + assert (∀ c : Store * option error,
          c.2 ≠ None → engine_ c.1 = engine_ s →
          (c.2 = None ↔ roachpb.identNodeID (Ident s) = 0 ∧ engine_ s = ∅)
          ∧ (c.2 = None → engine_ c.1 = {[ StoreIdentKey := VStoreIdent ident ]})
          ∧ (c.2 ≠ None → engine_ c.1 = engine_ s)) as Hrefused.
        { intros c Herr Heng. split; [split; [done|by intros [_ ?]]|]. split; done. }
        destruct (MVCCGetProto getStoreIdent (engine_ s) StoreIdentKey) as [[found|]|err];
          by apply Hrefused.
    - split; [split; [done|by intros [? _]]|]. split; done.
Qed.

End StoreProperties.

(** ** Key-range validity *)

Section VerifyKeysProperties.
Import storage.
Context `{KeyAddressing}.




End VerifyKeysProperties.

Section VerifyKeysExamples.
Import storage.


(** And a range from the user key "a" to the descriptor key of range "b"
      is accepted, although its end key sorts before its start key. *)
Example verifyKeys_accepts_local_end :
    @verifyKeys exampleAddressing (Some ["a"%byte])
      (Some (MakeRangeKey ["b"%byte] ["r"; "d"; "s"; "c"]%byte)) true = None
    ∧ Less (Some ["a"%byte])
        (Some (MakeRangeKey ["b"%byte] ["r"; "d"; "s"; "c"]%byte)) = false.
Proof. split; vm_compute; reflexivity. Qed.

(** Ordinary user keys: the claim and the code agree. *)
Example verifyKeys_user_range :
    @verifyKeys exampleAddressing (Some ["a"%byte]) (Some ["b"%byte]) true = None
    ∧ @verifyKeys exampleAddressing (Some ["b"%byte]) (Some ["a"%byte]) true
      = Some ErrEndNotGreater
    ∧ @verifyKeys exampleAddressing (Some ["a"%byte]) None false = None
    ∧ @verifyKeys exampleAddressing roachpb.KeyMax None false = Some ErrStartKeyMax
    ∧ @verifyKeys exampleAddressing roachpb.KeyMin (Some ["b"%byte]) true
      = Some ErrStartBelowLocalMax.
Proof. repeat split; vm_compute; reflexivity. Qed.

End VerifyKeysExamples.

(** ** Coalesced heartbeats *)

Section HeartbeatProperties.
Import multiraft.
Context {St : Type} `{Storage St}.

(** The group's heartbeat that [fanoutHeartbeat] steps, if it steps one:
      the sender leads the group, is not this node, and the storage knows
      the replicas of the sending and of the receiving store. *)
Definition heartbeatFor (s : state St) (req : RaftMessageRequest) (groupID : Z)
    : option raftpb.Message :=
    let fromID := int32 (raftpb.msgFrom (Message req)) in
    match groups s !! groupID with
    | None => None
    | Some g =>
        if (roachpb.NodeID (leader g) =? fromID) && negb (fromID =? nodeID s) then
          match ReplicaIDForStore (Storage_ s) groupID (roachpb.StoreID (FromReplica req)),
                ReplicaIDForStore (Storage_ s) groupID (roachpb.StoreID (ToReplica req)) with
          | Ok fromRepID, Ok toRepID =>
              Some (raftpb.mkMessage raftpb.MsgHeartbeat (uint64 toRepID) (uint64 fromRepID))
          | _, _ => None
          end
        else None
    end.

(** The groups this node shares with the sender of [req]. *)
Definition sharedGroups (s : state St) (req : RaftMessageRequest) : gset Z :=
    match nodes s !! int32 (raftpb.msgFrom (Message req)) with
    | Some originNode => groupIDs originNode
    | None => ∅
    end.

(** The response to a coalesced heartbeat. *)
Definition heartbeatResponse (s : state St) (req : RaftMessageRequest) : RaftMessageRequest :=
    let to := int32 (raftpb.msgFrom (Message req)) in
    let from := int32 (uint64 (nodeID s)) in
    mkRequest noGroup
      (roachpb.mkReplicaDescriptor to to 0)
      (roachpb.mkReplicaDescriptor from from 0)
      (raftpb.mkMessage raftpb.MsgHeartbeatResp (raftpb.msgFrom (Message req))
         (uint64 (nodeID s))).

Lemma fanoutToGroup_heartbeatFor (s : state St) (req : RaftMessageRequest) (groupID : Z) :
    is_Some (groups s !! groupID) →
    fanoutToGroup s req (int32 (raftpb.msgFrom (Message req))) groupID
    = Ok (match heartbeatFor s req groupID with
          | Some msg => [Step groupID msg]
          | None => []
          end).
Proof.
    intros [g Hg]. unfold fanoutToGroup, heartbeatFor. rewrite Hg.
    destruct (roachpb.NodeID (leader g) =? _); simpl; [|done].
    destruct (_ =? nodeID s); simpl; [done|].
    destruct (ReplicaIDForStore _ _ (roachpb.StoreID (FromReplica req))); [|done].
    by destruct (ReplicaIDForStore _ _ (roachpb.StoreID (ToReplica req))).
Qed.

Definition stepFor (s : state St) (req : RaftMessageRequest) (groupID : Z) : option call :=
    Step groupID <$> heartbeatFor s req groupID.

Lemma fanoutLoop_steps (s : state St) (req : RaftMessageRequest) (ids : list Z) :
    ∀ done : list call,
      Forall (fun groupID => is_Some (groups s !! groupID)) ids →
      fanoutLoop s req (int32 (raftpb.msgFrom (Message req))) ids done
      = (done ++ omap (stepFor s req) ids, None).
Proof.
    induction ids as [|groupID ids IH]; intros done Hknown; simpl.
    - by rewrite app_nil_r.
    - apply Forall_cons in Hknown as [Hgroup Hknown].
      rewrite fanoutToGroup_heartbeatFor by done.
      rewrite IH by done. unfold stepFor.
      destruct (heartbeatFor s req groupID); simpl.
      + by rewrite <- app_assoc.
      + by rewrite app_nil_r.
Qed.

(** On a state whose nodes only list known groups, [fanoutHeartbeat] steps
      the heartbeats of [heartbeatFor] and then responds. *)
Lemma fanoutHeartbeat_known_groups (s : state St) (req : RaftMessageRequest) :
    (∀ groupID, groupID ∈ sharedGroups s req → is_Some (groups s !! groupID)) →
    ∃ (s' : state St) (stepped : list (Z * raftpb.Message)),
      fanoutHeartbeat s req
      = (s', ((fun gm => Step gm.1 gm.2) <$> stepped)
             ++ [TransportSend (heartbeatResponse s req)], None)
      ∧ NoDup stepped.*1
      ∧ ∀ groupID msg,
          (groupID, msg) ∈ stepped
          ↔ groupID ∈ sharedGroups s req ∧ heartbeatFor s req groupID = Some msg.
Proof.
    intros Hknown. unfold fanoutHeartbeat, sharedGroups in *.
    set (fromID := int32 (raftpb.msgFrom (Message req))) in *.
    set (ids := match nodes s !! fromID with
                | Some originNode => elements (groupIDs originNode)
                | None => []
                end).
    assert (∀ groupID, groupID ∈ ids ↔
              groupID ∈ match nodes s !! fromID with
                        | Some originNode => groupIDs originNode
                        | None => ∅
                        end) as Hids.
    { intros groupID. unfold ids. destruct (nodes s !! fromID).
      - apply elem_of_elements.
      - split; [by intros ?%elem_of_nil|set_solver]. }
    assert (NoDup ids) as Hnodup.
    { unfold ids. destruct (nodes s !! fromID); [apply NoDup_elements|constructor]. }
    assert (match nodes s !! fromID with
            | Some originNode => fanoutLoop s req fromID (elements (groupIDs originNode)) []
            | None => ([], None)
            end = (omap (stepFor s req) ids, None)) as ->.
    { unfold ids. destruct (nodes s !! fromID); [|done].
      unfold fromID. rewrite fanoutLoop_steps; [done|].
      apply Forall_forall. intros groupID Hin. apply Hknown. by apply elem_of_elements. }
    unfold sendMessage. simpl.
    eexists _, (omap (fun groupID => (groupID,.) <$> heartbeatFor s req groupID) ids).
    split; [|split].
    - f_equal. f_equal. f_equal.
      clear Hids Hnodup. induction ids as [|groupID ids' IH]; [done|].
      cbn [omap list_omap]. unfold stepFor at 1.
      destruct (heartbeatFor s req groupID); simpl; by rewrite IH.
    - clear Hids. induction Hnodup as [|groupID ids' Hnotin Hnodup IH]; [constructor|].
      cbn [omap list_omap].
      destruct (heartbeatFor s req groupID) as [msg|]; simpl; [|done].
      constructor; [|done].
      intros Hin. apply list_elem_of_fmap in Hin as ([g m] & -> & Hin).
      apply list_elem_of_omap in Hin as (g' & Hg' & Hsome).
      destruct (heartbeatFor s req g'); simplify_eq/=. done.
    - intros groupID msg. rewrite list_elem_of_omap. split.
      + intros (g' & Hg' & Hsome).
        destruct (heartbeatFor s req g') eqn:Hfor; simplify_eq/=.
        split; [by apply Hids|done].
      + intros [Hshared Hfor]. exists groupID. split; [by apply Hids|].
        by rewrite Hfor.
Qed.

(** Reading the leader of a group that is not in [s.groups] is a nil
      dereference: the loop stops there, with the steps made so far. *)
Lemma fanoutLoop_unknown_group (s : state St) (req : RaftMessageRequest) (ids : list Z) :
    ∀ done : list call,
      (∃ groupID, groupID ∈ ids ∧ groups s !! groupID = None) →
      ∃ calls,
        fanoutLoop s req (int32 (raftpb.msgFrom (Message req))) ids done
        = (calls, Some ErrPanic)
        ∧ ∀ sent, TransportSend sent ∈ calls → TransportSend sent ∈ done.
Proof.
    induction ids as [|id ids IH]; intros done (groupID & Hin & Hnone).
    - by apply elem_of_nil in Hin.
    - cbn [fanoutLoop]. destruct (groups s !! id) as [g|] eqn:Hid.
      + rewrite fanoutToGroup_heartbeatFor by eauto.
        apply elem_of_cons in Hin as [->|Hin]; [congruence|].
        destruct (IH (done ++ match heartbeatFor s req id with
                              | Some msg => [Step id msg]
                              | None => []
                              end)) as (calls & Hrun & Hsent); [by exists groupID|].
        exists calls. split; [done|]. intros sent Hcalls.
        apply Hsent, elem_of_app in Hcalls as [Hdone|Hstep]; [done|].
        destruct (heartbeatFor s req id).
        * apply list_elem_of_singleton in Hstep. discriminate Hstep.
        * by apply elem_of_nil in Hstep.
      + unfold fanoutToGroup. rewrite Hid. by exists done.
Qed.

(** C7, as the code has it.  On a state whose nodes only list known
      groups, [fanoutHeartbeat] steps one MsgHeartbeat into each group shared
      with the sender that the sender leads, provided the sender is not this
      node and the storage resolves the replica IDs of both stores, and into
      no other group; and after that it sends exactly one MsgHeartbeatResp
      back to the sender, whatever the number of groups stepped.  When the
      sender's node lists a group that is not known, the handler panics on
      that group's leader: the state is as before and no response is
      sent. *)
Theorem fanoutHeartbeat_steps_and_responds (s : state St) (req : RaftMessageRequest) :
    ((∀ groupID, groupID ∈ sharedGroups s req → is_Some (groups s !! groupID)) →
     ∃ (s' : state St) (stepped : list (Z * raftpb.Message)),
       fanoutHeartbeat s req
       = (s', ((fun gm => Step gm.1 gm.2) <$> stepped)
              ++ [TransportSend (heartbeatResponse s req)], None)
       ∧ NoDup stepped.*1
       ∧ ∀ groupID msg,
           (groupID, msg) ∈ stepped
           ↔ groupID ∈ sharedGroups s req ∧ heartbeatFor s req groupID = Some msg)
    ∧ ((∃ groupID, groupID ∈ sharedGroups s req ∧ groups s !! groupID = None) →
       (fanoutHeartbeat s req).2 = Some ErrPanic
       ∧ (fanoutHeartbeat s req).1.1 = s
       ∧ ∀ sent, TransportSend sent ∉ (fanoutHeartbeat s req).1.2).
Proof.
    split; [apply fanoutHeartbeat_known_groups|].
    intros (groupID & Hshared & Hnone). unfold fanoutHeartbeat, sharedGroups in *.
    destruct (nodes s !! int32 (raftpb.msgFrom (Message req))) as [originNode|];
      [|by apply not_elem_of_empty in Hshared].
    destruct (fanoutLoop_unknown_group s req (elements (groupIDs originNode)) [])
      as (calls & -> & Hsent).
    { exists groupID. split; [by apply elem_of_elements|done]. }
    simpl. split; [done|]. split; [done|].
    intros sent Hin. by apply Hsent, elem_of_nil in Hin.
Qed.

End HeartbeatProperties.

Section HeartbeatExamples.
Import multiraft.

(** Node 1 (store 1) receives a coalesced heartbeat from node 2. *)
Definition heartbeatFrom2 : RaftMessageRequest :=
    mkRequest noGroup
      (roachpb.mkReplicaDescriptor 1 1 0)
      (roachpb.mkReplicaDescriptor 2 2 0)
      (raftpb.mkMessage raftpb.MsgHeartbeat 1 2).

Definition ledBy (groupID nodeID : Z) : group :=
    mkGroup groupID 1 0 (roachpb.mkReplicaDescriptor nodeID nodeID nodeID) false [] 0.

(** Node 1 follows node 2 in group 1 and node 3 in group 2; its store has
      the replica of range 1 with replicas on stores 1, 2 and 3. *)
Definition followerState : state storage.Store :=
    mkState 1 1
      (storage.mkStore (roachpb.mkStoreIdent clusterA 1 1) ∅ {[ 1 := freshReplica ]} ∅)
      {[ 1 := ledBy 1 2; 2 := ledBy 2 3 ]}
      {[ 2 := mkNode 2 {[ 1; 2 ]}; 3 := mkNode 3 {[ 1; 2 ]} ]}.

(** Node 1 has only a placeholder for range 7, created by an incoming
      message and still waiting for its snapshot: its descriptor lists no
      replicas.  Group 7 already knows node 2 as its leader. *)
Definition placeholder7 : storage.Replica :=
    storage.mkReplica (roachpb.mkRangeDescriptor 7 None None [] 0)
                      0 0 None (roachpb.mkStats 0 0 0) None 0.

Definition waitingState : state storage.Store :=
    mkState 1 1
      (storage.mkStore (roachpb.mkStoreIdent clusterA 1 1) ∅ {[ 7 := placeholder7 ]} {[ 7 ]})
      {[ 7 := ledBy 7 2 ]}
      {[ 2 := mkNode 2 {[ 7 ]} ]}.

(** The heartbeat reaches group 1 only, and is answered. *)
Example fanoutHeartbeat_follower :
    (fanoutHeartbeat followerState heartbeatFrom2).1.2
    = [Step 1 (raftpb.mkMessage raftpb.MsgHeartbeat 1 2);
       TransportSend (heartbeatResponse followerState heartbeatFrom2)]
    ∧ (fanoutHeartbeat followerState heartbeatFrom2).2 = None.
Proof. split; vm_compute; reflexivity. Qed.

(** Group 7 is shared with node 2, which leads it and is not this node;
      still no heartbeat is stepped into it, because the store cannot name
      the sender's replica.  The response is sent all the same. *)
Lemma fanoutHeartbeat_skips_unresolved_replica :
    7 ∈ sharedGroups waitingState heartbeatFrom2
    ∧ leader <$> groups waitingState !! 7 = Some (roachpb.mkReplicaDescriptor 2 2 2)
    ∧ int32 (raftpb.msgFrom (Message heartbeatFrom2)) = 2
    ∧ nodeID waitingState = 1
    ∧ ReplicaIDForStore (Storage_ waitingState) 7 2 = Err ErrStoreNotFound
    ∧ (fanoutHeartbeat waitingState heartbeatFrom2).1.2
      = [TransportSend (heartbeatResponse waitingState heartbeatFrom2)]
    ∧ (fanoutHeartbeat waitingState heartbeatFrom2).2 = None.
Proof.
    split; [apply (bool_decide_unpack _); vm_compute; exact I|].
    repeat split; vm_compute; reflexivity.
Qed.

Lemma fanoutHeartbeat_steps_and_responds_witness :
    (∀ groupID, groupID ∈ sharedGroups followerState heartbeatFrom2 →
       is_Some (groups followerState !! groupID))
    ∧ ∃ (s' : state storage.Store) (stepped : list (Z * raftpb.Message)),
        fanoutHeartbeat followerState heartbeatFrom2
        = (s', ((fun gm => Step gm.1 gm.2) <$> stepped)
               ++ [TransportSend (heartbeatResponse followerState heartbeatFrom2)], None)
        ∧ NoDup stepped.*1
        ∧ ∀ groupID msg,
            (groupID, msg) ∈ stepped
            ↔ groupID ∈ sharedGroups followerState heartbeatFrom2
              ∧ heartbeatFor followerState heartbeatFrom2 groupID = Some msg.
Proof.
    assert (∀ groupID, groupID ∈ sharedGroups followerState heartbeatFrom2 →
              is_Some (groups followerState !! groupID)) as Hknown.
    { apply (bool_decide_unpack
               (set_Forall (fun groupID => is_Some (groups followerState !! groupID))
                           (sharedGroups followerState heartbeatFrom2))).
      vm_compute. exact I. }
    split; [exact Hknown|].
    exact (proj1 (fanoutHeartbeat_steps_and_responds followerState heartbeatFrom2) Hknown).
Defined.

End HeartbeatExamples.

Section CombineExamples.
Import roachpb.

Definition row (k v : byte) : list byte * list byte := ([k], [v]).

Definition partialResponse : BatchResponse ResponseUnion Timestamp :=
    {| Responses := [NoopResponse; ScanResponse [row "a" "1"]; PutResponse];
       Timestamp_ := makeTS 1 0;
       Txn_ := makeTS 1 0 |}.

Definition laterResponse : BatchResponse ResponseUnion Timestamp :=
    {| Responses := [GetResponse (Some ["v"%byte]); ScanResponse [row "b" "2"]; PutResponse];
       Timestamp_ := makeTS 2 5;
       Txn_ := makeTS 2 5 |}.

Definition shortResponse : BatchResponse ResponseUnion Timestamp :=
    {| Responses := [PutResponse]; Timestamp_ := makeTS 3 0; Txn_ := makeTS 3 0 |}.

Example Combine_fills_and_merges :
    Combine partialResponse laterResponse
    = ({| Responses := [GetResponse (Some ["v"%byte]);
                        ScanResponse [row "a" "1"; row "b" "2"];
                        PutResponse];
          Timestamp_ := makeTS 2 5;
          Txn_ := makeTS 2 5 |}, None)
    ∧ Combine partialResponse shortResponse = (partialResponse, Some ErrDifferentLength).
Proof. split; reflexivity. Qed.

(** The first slot holds rows where the other batch answers a DeleteRange:
      the slot's own Combine fails. *)
Definition rowsThenNoop : BatchResponse ResponseUnion Timestamp :=
    {| Responses := [ScanResponse [row "a" "1"]; NoopResponse];
       Timestamp_ := makeTS 1 0;
       Txn_ := makeTS 1 0 |}.

Definition deletedThenValue : BatchResponse ResponseUnion Timestamp :=
    {| Responses := [DeleteRangeResponse 3; GetResponse (Some ["v"%byte])];
       Timestamp_ := makeTS 2 5;
       Txn_ := makeTS 2 5 |}.

(** C10, refuted as stated.  Two responses with two slots each: the first
      pair is combinable and does not combine, so [Combine] returns at once.
      The NoopResponse in the second slot is not replaced by the other
      batch's slot and the timestamp is not forwarded. *)
Lemma Combine_stops_at_failing_slot :
    length (Responses deletedThenValue) = length (Responses rowsThenNoop)
    ∧ is_Some (Combine rowsThenNoop deletedThenValue).2
    ∧ Responses (Combine rowsThenNoop deletedThenValue).1 !! 1%nat = Some NoopResponse
    ∧ Responses deletedThenValue !! 1%nat = Some (GetResponse (Some ["v"%byte]))
    ∧ Timestamp_ (Combine rowsThenNoop deletedThenValue).1 = Timestamp_ rowsThenNoop
    ∧ Forward (Timestamp_ rowsThenNoop) (Timestamp_ deletedThenValue)
      ≠ Timestamp_ rowsThenNoop.
Proof. split_and!; [done|by eexists|done|done|done|done]. Qed.

Lemma Combine_slots_timestamp_witness :
    (Combine partialResponse shortResponse).2 = Some ErrDifferentLength
    ∧ ∃ combined,
        Combine partialResponse laterResponse = (combined, None)
        ∧ Timestamp_ combined = Forward (Timestamp_ partialResponse) (Timestamp_ laterResponse)
        ∧ length (Responses combined) = length (Responses partialResponse)
        ∧ ∀ i valLeft valRight,
            Responses partialResponse !! i = Some valLeft →
            Responses laterResponse !! i = Some valRight →
            Responses combined !! i = Some (combinedSlot valLeft valRight).
Proof.
    split.
    - apply (Combine_slots_timestamp partialResponse shortResponse). simpl. lia.
    - apply (Combine_slots_timestamp partialResponse laterResponse); [reflexivity|].
      intros i valLeft valRight Hl Hr Hboth.
      destruct i as [|[|[|i]]]; simpl in Hl, Hr; simplify_eq; done.
Defined.

End CombineExamples.

(** ** More on the batch model *)

Section BatchFlagsProperties.
Import roachpb.
Context {R : Type} `{Request R}.

Lemma land_pow2 (x n : Z) :
  0 ≤ n → Z.land x (2 ^ n) = if Z.testbit x n then 2 ^ n else 0.
Proof.
  intros Hn. apply Z.bits_inj'. intros k Hk.
  rewrite Z.land_spec, Z.pow2_bits_eqb by done.
  destruct (Z.eqb_spec n k) as [->|Hne].
  - destruct (Z.testbit x k); simpl.
    + by rewrite Z.pow2_bits_eqb, Z.eqb_refl.
    + by rewrite Z.bits_0.
  - rewrite andb_false_r. destruct (Z.testbit x n).
    + rewrite Z.pow2_bits_eqb by done. symmetry. by apply Z.eqb_neq.
    + by rewrite Z.bits_0.
Qed.

Lemma land_pow2_nonzero (x n : Z) :
  0 ≤ n → Z.land x (2 ^ n) ≠ 0 ↔ Z.testbit x n = true.
Proof.
  intros Hn. rewrite land_pow2 by done.
  destruct (Z.testbit x n); [|done].
  split; [done|]. intros _. apply Z.pow_nonzero; lia.
Qed.

Lemma batch_flags_testbit (Requests : list R) (n : Z) :
  ∀ acc : Z,
    Z.testbit (foldl (fun fl union => Z.lor fl (flags union)) acc Requests) n = true
    ↔ Z.testbit acc n = true ∨ ∃ union, union ∈ Requests ∧ Z.testbit (flags union) n = true.
Proof.
  induction Requests as [|union rest IH]; intros acc; simpl.
  - split; [by left|]. intros [?|(? & Hin & _)]; [done|by apply elem_of_nil in Hin].
  - rewrite IH, Z.lor_spec, orb_true_iff. split.
    + intros [[?|?]|(u & Hin & Hbit)].
      * by left.
      * right. exists union. split; [apply list_elem_of_here|done].
      * right. exists u. split; [by apply list_elem_of_further|done].
    + intros [?|(u & Hin & Hbit)]; [by left; left|].
      apply elem_of_cons in Hin as [->|Hin]; [by left; right|].
      right. by exists u.
Qed.

(** A batch carries a single-bit flag exactly when one of its requests
    does. *)
Lemma batch_flags_has (Requests : list R) (n : Z) :
  0 ≤ n →
  Z.land (batch_flags Requests) (2 ^ n) ≠ 0
  ↔ ∃ union, union ∈ Requests ∧ Z.land (flags union) (2 ^ n) ≠ 0.
Proof.
  intros Hn. rewrite land_pow2_nonzero by done. unfold batch_flags.
  rewrite batch_flags_testbit, Z.bits_0. split.
  - intros [?|(u & Hin & Hbit)]; [done|]. exists u. split; [done|].
    by apply land_pow2_nonzero.
  - intros (u & Hin & Hbit). right. exists u. split; [done|].
    by apply land_pow2_nonzero.
Qed.

(** X1.  [IsWrite] holds exactly when some request of the batch has the
    [isWrite] flag, and [IsAdmin] exactly when some request has [isAdmin]. *)
Theorem IsWrite_IsAdmin_some_request (ba : list R) :
  (IsWrite ba = true ↔ ∃ union, union ∈ ba ∧ Z.land (flags union) isWrite ≠ 0)
  ∧ (IsAdmin ba = true ↔ ∃ union, union ∈ ba ∧ Z.land (flags union) isAdmin ≠ 0).
Proof.
  unfold IsWrite, IsAdmin. split.
  - rewrite <- (batch_flags_has ba 2) by done.
    rewrite negb_true_iff, Z.eqb_neq. done.
  - rewrite <- (batch_flags_has ba 0) by done.
    rewrite negb_true_iff, Z.eqb_neq. done.
Qed.

(** X2.  [IsReadOnly] holds exactly when some request reads and none
    writes; so an empty batch is not read-only, and a batch is read-only as
    soon as one request reads and the others neither read nor write. *)
Theorem IsReadOnly_some_read_no_write (ba : list R) :
  IsReadOnly ba = true
  ↔ (∃ union, union ∈ ba ∧ Z.land (flags union) isRead ≠ 0)
    ∧ (∀ union, union ∈ ba → Z.land (flags union) isWrite = 0).
Proof.
  unfold IsReadOnly. rewrite andb_true_iff, negb_true_iff, Z.eqb_neq, Z.eqb_eq.
  rewrite (batch_flags_has ba 1) by done.
  assert (Z.land (batch_flags ba) isWrite = 0
          ↔ ∀ union, union ∈ ba → Z.land (flags union) isWrite = 0) as ->; [|done].
  pose proof (batch_flags_has ba 2 ltac:(done)) as Hhas. split.
  - intros Hnone union Hin.
    destruct (decide (Z.land (flags union) isWrite = 0)) as [|Hne]; [done|].
    exfalso. apply Hhas; [|done]. by exists union.
  - intros Hall.
    destruct (decide (Z.land (batch_flags ba) isWrite = 0)) as [|Hne]; [done|].
    apply Hhas in Hne as (union & Hin & Hbit). by specialize (Hall union Hin).
Qed.

End BatchFlagsProperties.

Section SplitPartsProperties.
Import roachpb.
Context {R : Type} `{Request R}.

(** What [compatible] asks of a request that joins a part with flags. *)
Definition joins (exFlags : Z) (union : R) : Prop :=
  Z.land (flags union) isAlone = 0
  ∧ Z.land mask (flags union) = Z.land mask exFlags.

Lemma compatible_joins (exFlags : Z) (union : R) :
  exFlags ≠ 0 → compatible exFlags (flags union) = true ↔ joins exFlags union.
Proof.
  intros Hex. unfold compatible, joins.
  destruct (Z.eqb_spec exFlags 0) as [|_]; [done|].
  destruct (Z.eqb_spec (Z.land (flags union) isAlone) 0) as [Halone|Halone]; simpl.
  - rewrite Z.eqb_eq. split; [by intros ->|by intros [_ ->]].
  - split; [done|by intros [? _]].
Qed.

Lemma mask_lor_joined (exFlags : Z) (union : R) :
  joins exFlags union →
  Z.land mask (Z.lor exFlags (flags union)) = Z.land mask exFlags.
Proof.
  intros [_ Hmask]. rewrite Z.land_lor_distr_r, Hmask. apply Z.lor_diag.
Qed.

Lemma lor_nonzero (a b : Z) : a ≠ 0 → Z.lor a b ≠ 0.
Proof. intros Ha Hlor. by apply Z.lor_eq_0_iff in Hlor as [? _]. Qed.

(** Every request that a scan accepts into a part with flags joins them. *)
Lemma scanPart_accepted (rest : list R) :
  ∀ (gFlags : Z) (i : nat),
    gFlags ≠ 0 →
    Forall (joins gFlags) (take (scanPart gFlags i rest - i) rest).
Proof.
  induction rest as [|union rest IH]; intros gFlags i Hg; simpl.
  - rewrite take_nil. constructor.
  - destruct (compatible gFlags (flags union)) eqn:Hc.
    + pose proof (scanPart_bounds rest (Z.lor gFlags (flags union)) (S i)) as Hb.
      replace (scanPart (Z.lor gFlags (flags union)) (S i) rest - i)%nat
        with (S (scanPart (Z.lor gFlags (flags union)) (S i) rest - S i)) by lia.
      apply compatible_joins in Hc; [|done]. simpl. constructor; [done|].
      eapply Forall_impl; [apply IH; by apply lor_nonzero|].
      intros r [Halone Hmask]. split; [done|].
      by rewrite Hmask, mask_lor_joined.
    + rewrite Nat.sub_diag. constructor.
Qed.

(** A scan accepts everything that joins. *)
Lemma scanPart_all (rest : list R) :
  ∀ (gFlags : Z) (i : nat),
    gFlags ≠ 0 → Forall (joins gFlags) rest →
    scanPart gFlags i rest = (i + length rest)%nat.
Proof.
  induction rest as [|union rest IH]; intros gFlags i Hg Hall; simpl; [lia|].
  apply Forall_cons in Hall as [Hjoin Hall].
  rewrite (proj2 (compatible_joins gFlags union Hg) Hjoin).
  rewrite IH; [lia|by apply lor_nonzero|].
  eapply Forall_impl; [exact Hall|]. intros r [Halone Hmask]. split; [done|].
  by rewrite Hmask, mask_lor_joined.
Qed.

(** The shape of a sub-batch: every request after the first may join the
    first. *)
Definition wellFormedPart (part : list R) : Prop :=
  match part with
  | [] => True
  | first :: others => Forall (joins (flags first)) others
  end.

Lemma first_part_wellFormed (Requests : list R) :
  Forall (fun union => flags union ≠ 0) Requests →
  wellFormedPart (take (scanPart 0 0 Requests) Requests).
Proof.
  intros Hflags. destruct Requests as [|first rest]; [done|].
  apply Forall_cons in Hflags as [Hfirst _].
  pose proof (scanPart_first first rest) as Hn.
  pose proof (scanPart_accepted rest (Z.lor 0 (flags first)) 1) as Hacc.
  change (scanPart 0 0 (first :: rest)) with (scanPart (Z.lor 0 (flags first)) 1 rest) in *.
  destruct (scanPart (Z.lor 0 (flags first)) 1 rest) as [|n]; [lia|].
  simpl in *. rewrite Nat.sub_0_r in Hacc. apply Hacc. by rewrite Z.lor_0_l.
Qed.

Lemma SplitLoop_wellFormed (fuel : nat) :
  ∀ (Requests : list R) (parts : list (list R)),
    Forall (fun union => flags union ≠ 0) Requests →
    Forall wellFormedPart parts →
    Forall wellFormedPart (SplitLoop fuel Requests parts).
Proof.
  induction fuel as [|fuel IH]; intros Requests parts Hflags Hparts; [done|].
  destruct Requests as [|union rest]; [done|].
  cbn [SplitLoop]. unfold slice_to, slice_from. apply IH.
  - by apply Forall_drop.
  - apply Forall_app. split; [done|]. apply Forall_singleton.
    by apply first_part_wellFormed.
Qed.

(** X3.  In a batch whose requests all carry some flag, every sub-batch
    that [Split] produces is uniform: no request after its first has to run
    alone, and all of them agree with the first on [isWrite], [isAdmin] and
    [isReverse]. *)
Theorem Split_parts_uniform (Requests : list R) :
  Forall (fun union => flags union ≠ 0) Requests →
  Forall wellFormedPart (Split Requests).
Proof. intros Hflags. unfold Split. by apply SplitLoop_wellFormed. Qed.

(** X4.  A batch whose requests all carry some flag stays in one piece
    exactly when every request after the first does not have to run alone
    and agrees with the first on the masked flags.  Nothing is asked of the
    first request: one that has to run alone is still followed by the
    requests that agree with it. *)
Theorem Split_one_part_iff (first : R) (others : list R) :
  Forall (fun union => flags union ≠ 0) (first :: others) →
  Split (first :: others) = [first :: others]
  ↔ Forall (joins (flags first)) others.
Proof.
  intros Hflags. split.
  - intros Hone.
    assert (Forall wellFormedPart (Split (first :: others))) as Huniform.
    { unfold Split. by apply SplitLoop_wellFormed. }
    rewrite Hone in Huniform. exact (proj1 (Forall_singleton _ _) Huniform).
  - intros Hjoin. apply Split_whole; [done|]. simpl.
    apply Forall_cons in Hflags as [Hfirst _].
    rewrite Z.lor_0_l. by rewrite scanPart_all.
Qed.

End SplitPartsProperties.

Section SplitPartsExamples.
Import roachpb.

Definition mixedBatch : list RequestUnion :=
  [GetRequest key_k; ScanRequest key_k key_s 10; PutRequest key_k value_v;
   ConditionalPutRequest key_k value_v None; EndTransactionRequest true;
   DeleteRequest key_k; AdminSplitRequest key_s key_s].

Lemma requestFlags_nonzero (r : RequestUnion) : flags r ≠ 0.
Proof. by destruct r. Qed.

Lemma Split_parts_uniform_witness : Forall wellFormedPart (Split mixedBatch).
Proof.
  apply (Split_parts_uniform mixedBatch).
  apply Forall_forall. intros r _. apply requestFlags_nonzero.
Defined.

(** The end of a transaction does not keep later writes out of its
    sub-batch. *)
Lemma Split_one_part_iff_witness :
  Split [EndTransactionRequest true; PutRequest key_k value_v; DeleteRequest key_k]
  = [[EndTransactionRequest true; PutRequest key_k value_v; DeleteRequest key_k]].
Proof.
  apply (Split_one_part_iff (EndTransactionRequest true)
           [PutRequest key_k value_v; DeleteRequest key_k]).
  - apply Forall_forall. intros r _. apply requestFlags_nonzero.
  - repeat constructor.
Defined.

Example Split_mixedBatch :
  Split mixedBatch
  = [[GetRequest key_k; ScanRequest key_k key_s 10];
     [PutRequest key_k value_v; ConditionalPutRequest key_k value_v None];
     [EndTransactionRequest true; DeleteRequest key_k];
     [AdminSplitRequest key_s key_s]].
Proof. reflexivity. Qed.

End SplitPartsExamples.

(** ** More on the replica's raft storage *)

Section LogRangeProperties.
Import keys engine storage.

(** The pair the scan visits at index [i], if the engine holds one. *)
Definition storedAt (eng : Engine) (rangeID i : Z) : option (Z * Value) :=
  (fun v => (i, v)) <$> eng !! RaftLogKey rangeID i.

#[local] Instance indexLe_trans : Transitive indexLe.
Proof. intros a b c. unfold indexLe. lia. Qed.

#[local] Instance indexLe_total : Total indexLe.
Proof. intros a b. unfold indexLe. lia. Qed.

Lemma NoDup_omap {A B} (f : A → option B) (l : list A) :
  (∀ x y z, f x = Some z → f y = Some z → x = y) →
  NoDup l → NoDup (omap f l).
Proof.
  intros Hinj Hnodup. induction Hnodup as [|x l Hnotin Hnodup IH]; [constructor|].
  cbn [omap list_omap]. destruct (f x) as [z|] eqn:Hfx; [|done].
  constructor; [|done]. intros Hin.
  apply list_elem_of_omap in Hin as (y & Hy & Hfy).
  by rewrite (Hinj x y z Hfx Hfy) in Hnotin.
Qed.

Lemma StronglySorted_omap {A B} (f : A → option B) (R : relation A) (R' : relation B)
    (l : list A) :
  (∀ x y a b, R x y → f x = Some a → f y = Some b → R' a b) →
  StronglySorted R l → StronglySorted R' (omap f l).
Proof.
  intros Hmono Hsorted. induction Hsorted as [|x l Hsorted IH Hall]; [constructor|].
  cbn [omap list_omap]. destruct (f x) as [a|] eqn:Hfx; [|done].
  constructor; [done|]. apply Forall_forall. intros b Hin.
  apply list_elem_of_omap in Hin as (y & Hy & Hfy).
  rewrite Forall_forall in Hall. by eapply Hmono; [apply Hall| |].
Qed.

Lemma StronglySorted_seqZ (n : nat) :
  ∀ m : Z, StronglySorted Z.lt (seqZ m (Z.of_nat n)).
Proof.
  induction n as [|n IH]; intros m.
  - rewrite seqZ_nil by lia. constructor.
  - rewrite seqZ_cons by lia.
    replace (Z.pred (Z.of_nat (S n))) with (Z.of_nat n) by lia.
    constructor; [apply IH|]. apply Forall_forall. intros k Hk.
    apply elem_of_seqZ in Hk. lia.
Qed.

Lemma logRange_elem (eng : Engine) (rangeID lo hi i : Z) (v : Value) :
  (i, v) ∈ logRange eng rangeID lo hi
  ↔ eng !! RaftLogKey rangeID i = Some v ∧ lo ≤ i < hi.
Proof.
  unfold logRange. rewrite merge_sort_Permutation, list_elem_of_omap. split.
  - intros ([k v'] & Hin & Hlog). apply elem_of_map_to_list in Hin.
    unfold isLogKV in Hlog. simpl in Hlog. destruct k; try done.
    case_bool_decide as Hrange; [|done]. destruct Hrange as (-> & Hlo & Hhi).
    by simplify_eq.
  - intros (Hstored & Hlo & Hhi). exists (RaftLogKey rangeID i, v).
    split; [by apply elem_of_map_to_list|].
    unfold isLogKV. simpl. by rewrite bool_decide_eq_true_2.
Qed.

Lemma storedRange_elem (eng : Engine) (rangeID lo hi i : Z) (v : Value) :
  (i, v) ∈ omap (storedAt eng rangeID) (seqZ lo (hi - lo))
  ↔ eng !! RaftLogKey rangeID i = Some v ∧ lo ≤ i < hi.
Proof.
  rewrite list_elem_of_omap. unfold storedAt. split.
  - intros (j & Hj & Hstored). apply elem_of_seqZ in Hj.
    destruct (eng !! RaftLogKey rangeID j) as [v'|] eqn:Hv; [|done].
    simpl in Hstored. simplify_eq. split; [done|lia].
  - intros (Hstored & Hlo & Hhi). exists i.
    split; [apply elem_of_seqZ; lia|]. by rewrite Hstored.
Qed.

(** The scan between [RaftLogKey(rangeID, lo)] and [RaftLogKey(rangeID, hi)]
    visits the indices from [lo] up to [hi], in order, at which the engine
    holds a pair. *)
Lemma logRange_seqZ (eng : Engine) (rangeID lo hi : Z) :
  logRange eng rangeID lo hi = omap (storedAt eng rangeID) (seqZ lo (hi - lo)).
Proof.
  apply (Sorted_unique_strong indexLe).
  - intros [i v] [j w] Hin1 Hin2 Hle1 Hle2. unfold indexLe in *. simpl in *.
    apply logRange_elem in Hin1 as [Hv _]. apply storedRange_elem in Hin2 as [Hw _].
    assert (i = j) as -> by lia. congruence.
  - unfold logRange. apply Sorted_merge_sort. apply _.
  - apply StronglySorted_Sorted.
    apply (StronglySorted_omap _ Z.lt).
    + intros x y [a v] [b w] Hlt Hx Hy. unfold storedAt in *.
      destruct (eng !! RaftLogKey rangeID x); [|done].
      destruct (eng !! RaftLogKey rangeID y); [|done].
      simpl in *. simplify_eq. unfold indexLe. simpl. lia.
    + destruct (Z.le_gt_cases 0 (hi - lo)) as [Hn|Hn].
      * rewrite <- (Z2Nat.id (hi - lo)) by done. apply StronglySorted_seqZ.
      * rewrite seqZ_nil by lia. constructor.
  - apply NoDup_Permutation.
    + unfold logRange. rewrite merge_sort_Permutation.
      apply NoDup_omap; [|apply NoDup_map_to_list].
      intros [k1 v1] [k2 v2] [i v] H1 H2. unfold isLogKV in *. simpl in *.
      destruct k1; try done. destruct k2; try done.
      repeat case_bool_decide; try done. simplify_eq.
      f_equal. f_equal; lia.
    + apply NoDup_omap; [|apply NoDup_seqZ].
      intros x y [i v] Hx Hy. unfold storedAt in *.
      destruct (eng !! RaftLogKey rangeID x); [|done].
      destruct (eng !! RaftLogKey rangeID y); [|done].
      simpl in *. by simplify_eq.
    + intros [i v]. by rewrite logRange_elem, storedRange_elem.
Qed.

End LogRangeProperties.

Section EntriesProperties.
Import keys engine storage.
Context `{Collaborators}.

Lemma getEntry_Ok (v : Value) (ent : raftpb.Entry) : getEntry v = Ok ent → v = VEntry ent.
Proof. destruct v; try done. by intros [= ->]. Qed.

(** What a scan has collected when it ends without error: the entries of
    its first [n] pairs, and at least one of them if there is any pair. *)
Lemma MVCCIterate_scanFunc (maxBytes : Z) (kvs : list (Z * Value)) :
  ∀ (st st' : list raftpb.Entry * Z),
    MVCCIterate (scanFunc maxBytes) kvs st = Ok st' →
    ∃ n : nat,
      VEntry <$> st'.1 = (VEntry <$> st.1) ++ (take n kvs).*2
      ∧ (kvs ≠ [] → (0 < n)%nat).
Proof.
  induction kvs as [|kv kvs IH]; intros st st' Hrun; simpl in Hrun.
  - injection Hrun as <-. exists 0%nat. by rewrite app_nil_r.
  - unfold scanFunc in Hrun at 1. simpl in Hrun.
    destruct (getEntry kv.2) as [ent|] eqn:Hent; [|done]. simpl in Hrun.
    apply getEntry_Ok in Hent.
    destruct ((0 <? maxBytes) && _).
    + injection Hrun as <-. exists 1%nat. simpl.
      rewrite fmap_app, ?take_0. simpl. rewrite Hent. split; [done|lia].
    + apply IH in Hrun as (n & Hents & _). exists (S n). simpl in *.
      split; [|lia]. rewrite Hents, fmap_app, <- app_assoc. simpl. by rewrite Hent.
Qed.

(** What [Entries] returns is what the scan collected. *)
Lemma Entries_scanned
    (eng : Engine) (r : Replica) (lo hi maxBytes : Z) (ents : list raftpb.Entry) :
  Entries eng r lo hi maxBytes = Ok ents →
  ∃ n : nat,
    VEntry <$> ents
    = (take n (omap (storedAt eng (roachpb.RangeID (desc r))) (seqZ lo (hi - lo)))).*2.
Proof.
  unfold Entries. rewrite logRange_seqZ. intros Hrun.
  destruct (MVCCIterate _ _ _) as [st|] eqn:Hscan; [|done]. simpl in Hrun.
  apply MVCCIterate_scanFunc in Hscan as (n & Hents & _).
  destruct (negb _ && _); [done|]. injection Hrun as <-. by exists n.
Qed.

(** X5.  The entries that [Entries] returns are, in order, the entries
    stored at the first occupied indices of [lo, hi): nothing is returned
    that is not stored in the range, nothing is reordered and no occupied
    index is skipped before the last returned entry. *)
Theorem Entries_stored_prefix
    (eng : Engine) (r : Replica) (lo hi maxBytes : Z) (ents : list raftpb.Entry) :
  Entries eng r lo hi maxBytes = Ok ents →
  ∃ n : nat,
    VEntry <$> ents
    = (take n (omap (storedAt eng (roachpb.RangeID (desc r))) (seqZ lo (hi - lo)))).*2.
Proof.
  unfold Entries. rewrite logRange_seqZ. intros Hrun.
  destruct (MVCCIterate _ _ _) as [st|] eqn:Hscan; [|done]. simpl in Hrun.
  apply MVCCIterate_scanFunc in Hscan as (n & Hents & _).
  destruct (negb _ && _); [done|]. injection Hrun as <-. by exists n.
Qed.

Lemma int64_uint64_nonzero (d : Z) : 0 < d < 2 ^ 64 → int64 (uint64 d) ≠ 0.
Proof.
  intros Hd. unfold int64, uint64. rewrite (Z.mod_small d) by lia.
  destruct (Z.lt_ge_cases d (2 ^ 63)).
  - rewrite Z.mod_small by lia. lia.
  - replace (d + 2 ^ 63) with (d - 2 ^ 63 + 1 * 2 ^ 64) by lia.
    rewrite Z_mod_plus_full, Z.mod_small by lia. lia.
Qed.

(** X6.  Asked for a non-empty range, [Entries] never succeeds with an empty
    list: it returns at least one entry, whatever the size limit, or
    fails. *)
Theorem Entries_at_least_one
    (eng : Engine) (r : Replica) (lo hi maxBytes : Z) (ents : list raftpb.Entry) :
  0 ≤ maxBytes → 0 < hi - lo < 2 ^ 64 →
  Entries eng r lo hi maxBytes = Ok ents →
  ents ≠ [].
Proof.
  intros Hmax Hrange. unfold Entries.
  destruct (logRange eng (roachpb.RangeID (desc r)) lo hi) as [|kv kvs] eqn:Hlog.
  - simpl. pose proof (int64_uint64_nonzero (hi - lo) Hrange) as Hnonzero.
    assert ((maxBytes =? 0) || (0 <? maxBytes) = true) as ->.
    { apply orb_true_iff. destruct (Z.eqb_spec maxBytes 0); [by left|right].
      apply Z.ltb_lt. lia. }
    by destruct (int64 (uint64 (hi - lo))).
  - intros Hrun. destruct (MVCCIterate _ _ _) as [st|] eqn:Hscan; [|done].
    simpl in Hrun. apply MVCCIterate_scanFunc in Hscan as (n & Hents & Hpos).
    destruct (negb _ && _); [done|]. injection Hrun as <-.
    intros Hnil. rewrite Hnil in Hents. simpl in Hents.
    specialize (Hpos ltac:(done)). destruct n; [lia|]. done.
Qed.

Lemma scanFunc_no_limit (st : list raftpb.Entry * Z) (ent : raftpb.Entry) :
  scanFunc 0 st (VEntry ent)
  = Ok (st.1 ++ [ent], uint64 (st.2 + uint64 (entrySize ent)), false).
Proof. reflexivity. Qed.

(** Without a size limit the scan collects every pair. *)
Lemma MVCCIterate_no_limit (entries : list raftpb.Entry) :
  ∀ (ixs : list Z) (st : list raftpb.Entry * Z),
    length ixs = length entries →
    ∃ size,
      MVCCIterate (scanFunc 0) (zip ixs (VEntry <$> entries)) st
      = Ok (st.1 ++ entries, size).
Proof.
  induction entries as [|ent entries IH]; intros ixs st Hlen.
  - destruct ixs; [|done]. exists st.2. simpl. rewrite app_nil_r. by destruct st.
  - destruct ixs as [|i ixs]; [done|].
    destruct (IH ixs (st.1 ++ [ent], uint64 (st.2 + uint64 (entrySize ent))))
      as (size & Hrun); [by injection Hlen|].
    exists size. cbn [fmap list_fmap zip_with MVCCIterate snd].
    rewrite scanFunc_no_limit, Hrun. simpl. by rewrite <- app_assoc.
Qed.

Lemma stored_all (eng : Engine) (rangeID : Z) (entries : list raftpb.Entry) :
  ∀ lo : Z,
    (∀ (j : nat) ent, entries !! j = Some ent →
       eng !! RaftLogKey rangeID (lo + Z.of_nat j) = Some (VEntry ent)) →
    omap (storedAt eng rangeID) (seqZ lo (Z.of_nat (length entries)))
    = zip (seqZ lo (Z.of_nat (length entries))) (VEntry <$> entries).
Proof.
  induction entries as [|ent entries IH]; intros lo Hstored; [done|].
  rewrite seqZ_cons by (simpl; lia).
  replace (Z.pred (Z.of_nat (length (ent :: entries)))) with (Z.of_nat (length entries))
    by (simpl; lia).
  cbn [omap list_omap]. unfold storedAt at 1.
  specialize (Hstored 0%nat ent eq_refl) as Hfirst. rewrite Z.add_0_r in Hfirst.
  rewrite Hfirst. simpl. f_equal. apply IH.
  intros j e Hj. specialize (Hstored (S j) e Hj).
  by replace (Z.succ lo + Z.of_nat j) with (lo + Z.of_nat (S j)) by lia.
Qed.

(** A scan without a size limit over a gapless log reads all of it. *)
Lemma Entries_gapless
    (eng : Engine) (r : Replica) (lo : Z) (entries : list raftpb.Entry) :
  Z.of_nat (length entries) < 2 ^ 63 →
  (∀ (j : nat) ent, entries !! j = Some ent →
     eng !! RaftLogKey (roachpb.RangeID (desc r)) (lo + Z.of_nat j) = Some (VEntry ent)) →
  Entries eng r lo (lo + Z.of_nat (length entries)) 0 = Ok entries.
Proof.
  intros Hlen Hstored. unfold Entries. rewrite logRange_seqZ.
  replace (lo + Z.of_nat (length entries) - lo) with (Z.of_nat (length entries)) by lia.
  rewrite stored_all by done.
  destruct (MVCCIterate_no_limit entries (seqZ lo (Z.of_nat (length entries))) ([], 0))
    as (size & ->).
  { rewrite length_seqZ. lia. }
  simpl. unfold int64, uint64.
  rewrite (Z.mod_small (Z.of_nat (length entries))) by lia.
  rewrite Z.mod_small by lia.
  replace (Z.of_nat (length entries) + 2 ^ 63 - 2 ^ 63) with (Z.of_nat (length entries)) by lia.
  by rewrite Z.eqb_refl.
Qed.

(** X7.  When every index of [lo, hi) holds an entry, [Entries(lo, hi, 0)]
    returns all of them in index order. *)
Theorem Entries_complete
    (eng : Engine) (r : Replica) (lo : Z) (entries : list raftpb.Entry) :
  Z.of_nat (length entries) < 2 ^ 63 →
  (∀ (j : nat) ent, entries !! j = Some ent →
     eng !! RaftLogKey (roachpb.RangeID (desc r)) (lo + Z.of_nat j) = Some (VEntry ent)) →
  Entries eng r lo (lo + Z.of_nat (length entries)) 0 = Ok entries.
Proof.
  intros Hlen Hstored. unfold Entries. rewrite logRange_seqZ.
  replace (lo + Z.of_nat (length entries) - lo) with (Z.of_nat (length entries)) by lia.
  rewrite stored_all by done.
  destruct (MVCCIterate_no_limit entries (seqZ lo (Z.of_nat (length entries))) ([], 0))
    as (size & ->).
  { rewrite length_seqZ. lia. }
  simpl. unfold int64, uint64.
  rewrite (Z.mod_small (Z.of_nat (length entries))) by lia.
  rewrite Z.mod_small by lia.
  replace (Z.of_nat (length entries) + 2 ^ 63 - 2 ^ 63) with (Z.of_nat (length entries)) by lia.
  by rewrite Z.eqb_refl.
Qed.

Lemma omap_length_all {A B} (f : A → option B) (l : list A) :
  (length (omap f l) ≤ length l)%nat
  ∧ (length (omap f l) = length l → Forall (fun x => is_Some (f x)) l).
Proof.
  induction l as [|x l [IHle IHall]]; [by split|].
  cbn [omap list_omap]. destruct (f x) as [y|] eqn:Hfx; simpl.
  - split; [lia|]. intros Hlen. constructor; [by exists y|]. apply IHall. lia.
  - split; [lia|]. intros Hlen. lia.
Qed.

(** X8.  Without a size limit, [Entries] succeeds only if no index of
    [lo, hi) is missing, and then it returns [hi - lo] entries. *)
Theorem Entries_no_limit_nothing_missing
    (eng : Engine) (r : Replica) (lo hi : Z) (ents : list raftpb.Entry) :
  0 ≤ hi - lo < 2 ^ 63 →
  Entries eng r lo hi 0 = Ok ents →
  Z.of_nat (length ents) = hi - lo
  ∧ ∀ i, lo ≤ i < hi → is_Some (eng !! RaftLogKey (roachpb.RangeID (desc r)) i).
Proof.
  intros Hrange Hrun.
  pose proof (Entries_scanned _ _ _ _ _ _ Hrun) as (n & Hprefix).
  unfold Entries in Hrun.
  destruct (MVCCIterate _ _ _) as [st|] eqn:Hscan; [|done]. simpl in Hrun.
  destruct (Z.eqb_spec (Z.of_nat (length st.1)) (int64 (uint64 (hi - lo)))) as [Hlen|];
    [|done].
  simpl in Hrun. injection Hrun as <-.
  assert (int64 (uint64 (hi - lo)) = hi - lo) as Hint.
  { unfold int64, uint64. rewrite (Z.mod_small (hi - lo)) by lia.
    rewrite Z.mod_small by lia. lia. }
  rewrite Hint in Hlen. split; [done|].
  apply (f_equal length) in Hprefix.
  rewrite !length_fmap, length_take in Hprefix.
  destruct (omap_length_all (storedAt eng (roachpb.RangeID (desc r))) (seqZ lo (hi - lo)))
    as [Hle Hall].
  rewrite length_seqZ in Hle, Hall.
  intros i Hi. specialize (Hall ltac:(lia)).
  rewrite Forall_forall in Hall.
  destruct (Hall i) as [[j v] Hstored]; [apply elem_of_seqZ; lia|].
  unfold storedAt in Hstored.
  destruct (eng !! RaftLogKey (roachpb.RangeID (desc r)) i); [done|done].
Qed.

End EntriesProperties.

Section TermProperties.
Import keys engine storage.
Context `{Collaborators}.

Lemma uint64_succ (i : Z) : 0 ≤ i → i + 1 < 2 ^ 64 → uint64 (i + 1) = i + 1.
Proof. intros. unfold uint64. apply Z.mod_small. lia. Qed.

(** X9.  [Term(i)] is the term of the entry stored at index [i], and the
    replica's cache is not touched. *)
Theorem Term_of_stored_entry (eng : Engine) (r : Replica) (i : Z) (ent : raftpb.Entry) :
  0 ≤ i → i + 1 < 2 ^ 64 →
  eng !! RaftLogKey (roachpb.RangeID (desc r)) i = Some (VEntry ent) →
  Term eng r i = (r, Ok (raftpb.Term ent)).
Proof.
  intros Hi Hmax Hstored. unfold Term. rewrite uint64_succ by done.
  pose proof (Entries_gapless eng r i [ent]) as Hentries.
  change (i + Z.of_nat (length [ent])) with (i + 1) in Hentries.
  rewrite Hentries; [done|done|].
  intros [|j] e Hj; [|done]. injection Hj as <-. by rewrite Z.add_0_r.
Qed.

Lemma Entries_missing_one (eng : Engine) (r : Replica) (i : Z) :
  eng !! RaftLogKey (roachpb.RangeID (desc r)) i = None →
  Entries eng r i (i + 1) 0 = Err ErrUnavailable.
Proof.
  intros Hnone. unfold Entries. rewrite logRange_seqZ.
  replace (i + 1 - i) with 1 by lia.
  rewrite (seqZ_cons i 1) by lia. rewrite seqZ_nil by lia.
  cbn [omap list_omap]. unfold storedAt. by rewrite Hnone.
Qed.

(** X10.  For an index that holds no entry, [Term(i)] answers from the
    truncated state: its term when [i] is its index, Unavailable
    otherwise. *)
Theorem Term_of_truncated_index
    (eng : Engine) (r r' : Replica) (i : Z) (ts : roachpb.RaftTruncatedState) :
  0 ≤ i → i + 1 < 2 ^ 64 →
  eng !! RaftLogKey (roachpb.RangeID (desc r)) i = None →
  raftTruncatedState eng r = (r', Ok ts) →
  Term eng r i
  = (r', if i =? roachpb.tsIndex ts then Ok (roachpb.tsTerm ts) else Err ErrUnavailable).
Proof.
  intros Hi Hmax Hnone Hts. unfold Term. rewrite uint64_succ by done.
  rewrite Entries_missing_one, Hts by done.
  by destruct (i =? roachpb.tsIndex ts).
Qed.

End TermProperties.

Section TruncatedStateProperties.
Import keys engine storage.

(** X11.  Once [raftTruncatedState] has answered with a non-zero index the
    answer is cached: later calls return it without reading the engine,
    whatever the engine holds by then.  An answer with index 0 is never
    cached. *)
Theorem raftTruncatedState_cached
    (eng : Engine) (r r' : Replica) (ts : roachpb.RaftTruncatedState) :
  raftTruncatedState eng r = (r', Ok ts) →
  (roachpb.tsIndex ts ≠ 0 → ∀ eng2, raftTruncatedState eng2 r' = (r', Ok ts))
  ∧ (roachpb.tsIndex ts = 0 → r' = r).
Proof.
  unfold raftTruncatedState. destruct (truncatedState r) as [cached|] eqn:Hcached.
  - intros [= <- <-]. split; [|done]. intros _ eng2. by rewrite Hcached.
  - destruct (MVCCGetProto _ _ _) as [found|]; [|done].
    set (answer := match found with
                   | Some ts => ts
                   | None => if isInitialized r
                             then roachpb.mkTruncatedState raftInitialLogIndex raftInitialLogTerm
                             else roachpb.mkTruncatedState 0 0
                   end).
    destruct (Z.eqb_spec (roachpb.tsIndex answer) 0) as [Hzero|Hnonzero]; simpl.
    + intros [= <- <-]. split; [done|done].
    + intros [= <- <-]. split; [|done]. by intros _ eng2.
Qed.

Lemma raftTruncatedState_cached_witness :
  (raftTruncatedState freshEngine freshReplica).2 = Ok (roachpb.mkTruncatedState 10 5)
  ∧ ∀ eng2, raftTruncatedState eng2 (raftTruncatedState freshEngine freshReplica).1
            = ((raftTruncatedState freshEngine freshReplica).1,
               Ok (roachpb.mkTruncatedState 10 5)).
Proof.
  split; [reflexivity|].
  apply (raftTruncatedState_cached freshEngine freshReplica
           (raftTruncatedState freshEngine freshReplica).1
           (roachpb.mkTruncatedState 10 5)).
  - reflexivity.
  - simpl. lia.
Defined.

(** X12.  The persisted indices survive the signed encoding: what
    [setAppliedIndex] and [setLastIndex] write, [loadAppliedIndex] and
    [loadLastIndex] read back, for every index below 2^64. *)
Theorem persisted_index_round_trip (eng : Engine) (r : Replica) (i : Z) :
  0 ≤ i < 2 ^ 64 →
  loadAppliedIndex r (setAppliedIndex eng (roachpb.RangeID (desc r)) i) = Ok i
  ∧ loadLastIndex (setLastIndex eng (roachpb.RangeID (desc r)) i) r = (r, Ok i).
Proof.
  intros Hi.
  unfold loadAppliedIndex, setAppliedIndex, loadLastIndex, setLastIndex, MVCCGet, MVCCPut.
  rewrite !lookup_insert_eq. simpl.
  by rewrite uint64_int64, uint64_small.
Qed.

Lemma persisted_index_round_trip_witness :
  loadAppliedIndex freshReplica (setAppliedIndex freshEngine 1 (2 ^ 64 - 1)) = Ok (2 ^ 64 - 1)
  ∧ loadLastIndex (setLastIndex freshEngine 1 (2 ^ 64 - 1)) freshReplica
    = (freshReplica, Ok (2 ^ 64 - 1)).
Proof. apply (persisted_index_round_trip freshEngine freshReplica (2 ^ 64 - 1)). lia. Defined.

(** X13.  [InitialState] returns the hard state that [SetHardState]
    persisted, with the replica IDs of the descriptor as membership, and
    leaves the replica's cache alone. *)
Theorem InitialState_after_SetHardState
    (eng : Engine) (r : Replica) (st : raftpb.HardState) :
  InitialState (SetHardState eng r st) r
  = (r, Ok (st, {| raftpb.Nodes :=
                     (fun rep => uint64 (roachpb.ReplicaID rep))
                       <$> roachpb.Replicas (desc r) |})).
Proof.
  unfold InitialState, SetHardState, MVCCGetProto, MVCCGet, MVCCPut.
  by rewrite lookup_insert_eq.
Qed.

(** Without a persisted hard state: an initialized replica starts at term 5
    with commit and last index 10, an uninitialized one at zero with no
    members. *)
Lemma InitialState_defaults (eng : Engine) (r : Replica) :
  eng !! RaftHardStateKey (roachpb.RangeID (desc r)) = None →
  InitialState eng r
  = if isInitialized r
    then (setLastIndexCache r 10,
          Ok (raftpb.mkHardState 5 0 10,
              {| raftpb.Nodes := (fun rep => uint64 (roachpb.ReplicaID rep))
                                   <$> roachpb.Replicas (desc r) |}))
    else (setLastIndexCache r 0, Ok (raftpb.mkHardState 0 0 0, {| raftpb.Nodes := [] |})).
Proof.
  intros Hnone. unfold InitialState, MVCCGetProto, MVCCGet. rewrite Hnone. simpl.
  by destruct (isInitialized r).
Qed.

End TruncatedStateProperties.

Section AppendProperties.
Import keys engine storage.
Context `{Collaborators}.

(** The pairs [Append] writes and the keys it deletes. *)
Definition logPair (rangeID : Z) (ent : raftpb.Entry) : EngineKey * Value :=
  (RaftLogKey rangeID (raftpb.Index ent), VEntry ent).

(** The engine after a non-empty [Append], spelled out. *)
Lemma Append_engine (eng : Engine) (r : Replica) (entries : list raftpb.Entry)
    (lastEnt : raftpb.Entry) :
  last entries = Some lastEnt →
  Append eng r entries
  = (setLastIndex
       (foldl Clear
          (foldl (fun b kv => Put b kv.1 kv.2) eng
                 (logPair (roachpb.RangeID (desc r)) <$> entries))
          (RaftLogKey (roachpb.RangeID (desc r))
             <$> seqZ (raftpb.Index lastEnt + 1) (lastIndex r - raftpb.Index lastEnt)))
       (roachpb.RangeID (desc r)) (raftpb.Index lastEnt),
     setLastIndexCache r (raftpb.Index lastEnt), None).
Proof.
  intros Hlast. unfold Append.
  destruct entries as [|ent entries]; [done|].
  cbn [length Nat.eqb]. rewrite last_lookup in Hlast. cbn [length Nat.pred] in Hlast.
  replace (S (length entries) - 1)%nat with (length entries) by lia.
  rewrite Hlast. unfold NewBatch, Commit.
  by rewrite !foldl_fmap.
Qed.

Lemma writtenValue_not_written (k : EngineKey) (kvs : list (EngineKey * Value)) :
  ∀ before, k ∉ kvs.*1 → writtenValue k before kvs = before.
Proof.
  unfold writtenValue. induction kvs as [|kv kvs IH]; intros before Hnotin; [done|].
  simpl in *. apply not_elem_of_cons in Hnotin as [Hne Hnotin].
  rewrite bool_decide_eq_false_2 by done. by apply IH.
Qed.

Lemma writtenValue_unique (k : EngineKey) (v : Value) (kvs : list (EngineKey * Value)) :
  ∀ before, NoDup kvs.*1 → (k, v) ∈ kvs → writtenValue k before kvs = Some v.
Proof.
  induction kvs as [|kv kvs IH]; intros before Hnodup Hin.
  - by apply elem_of_nil in Hin.
  - simpl in Hnodup. apply NoDup_cons in Hnodup as [Hnotin Hnodup].
    apply elem_of_cons in Hin as [<-|Hin].
    + unfold writtenValue. simpl. rewrite bool_decide_eq_true_2 by done.
      by apply (writtenValue_not_written k kvs (Some v)).
    + unfold writtenValue. simpl. by apply IH.
Qed.

(** X14.  When the index of its last entry and the replica's last index so
    far are both below [2^64 - 1], a non-empty [Append] succeeds, caches the
    index of its last entry and persists the same index; and it touches no
    key other than the log keys and the last-index key of its own range. *)
Theorem Append_last_index_and_frame
    (eng : Engine) (r : Replica) (entries : list raftpb.Entry) (lastEnt : raftpb.Entry) :
  last entries = Some lastEnt →
  0 ≤ raftpb.Index lastEnt < 2 ^ 64 - 1 →
  0 ≤ lastIndex r < 2 ^ 64 - 1 →
  let eng' := (Append eng r entries).1.1 in
  let r' := (Append eng r entries).1.2 in
  (Append eng r entries).2 = None
  ∧ LastIndex r' = raftpb.Index lastEnt
  ∧ loadLastIndex eng' r' = (r', Ok (raftpb.Index lastEnt))
  ∧ ∀ k, (∀ i, k ≠ RaftLogKey (roachpb.RangeID (desc r)) i) →
         k ≠ RaftLastIndexKey (roachpb.RangeID (desc r)) →
         eng' !! k = eng !! k.
Proof.
  intros Hlast Hindex _. rewrite (Append_engine eng r entries lastEnt Hlast). simpl.
  split; [done|]. split; [done|]. split.
  - unfold loadLastIndex, setLastIndex, MVCCGet, MVCCPut. simpl.
    rewrite lookup_insert_eq. simpl. by rewrite uint64_int64, uint64_small by lia.
  - intros k Hlog Hlastkey. unfold setLastIndex, MVCCPut.
    rewrite lookup_insert_ne by done.
    rewrite foldl_Clear_lookup, bool_decide_eq_false_2.
    + rewrite foldl_Put_lookup. apply writtenValue_not_written.
      intros Hin. apply list_elem_of_fmap in Hin as ([k' v] & -> & Hin).
      apply list_elem_of_fmap in Hin as (ent & [= -> ->] & _). by eapply Hlog.
    + intros Hin. apply list_elem_of_fmap in Hin as (i & -> & _). by eapply Hlog.
Qed.

(** X15.  After an [Append] no entry is left beyond its last entry, up to
    the last index the replica had before: the divergent tail is deleted. *)
Theorem Append_deletes_tail
    (eng : Engine) (r : Replica) (entries : list raftpb.Entry) (lastEnt : raftpb.Entry)
    (i : Z) :
  last entries = Some lastEnt →
  raftpb.Index lastEnt < i ≤ lastIndex r →
  (Append eng r entries).1.1 !! RaftLogKey (roachpb.RangeID (desc r)) i = None.
Proof.
  intros Hlast Hi. rewrite (Append_engine eng r entries lastEnt Hlast). simpl.
  unfold setLastIndex, MVCCPut. rewrite lookup_insert_ne by done.
  rewrite foldl_Clear_lookup, bool_decide_eq_true_2; [done|].
  apply list_elem_of_fmap. exists i. split; [done|]. apply elem_of_seqZ. lia.
Qed.

(** X16.  Entries with consecutive indices that were appended are read back
    by [Entries] over their index range, whatever the log held before,
    provided the end of that range, [first + length], is below [2^64] and
    the replica's last index so far is below [2^64 - 1]: the end of the
    range is then a uint64 and the deletion loop of [Append] neither wraps
    nor runs on. *)
Theorem Append_then_Entries
    (eng : Engine) (r : Replica) (entries : list raftpb.Entry) (first : Z) :
  entries ≠ [] →
  Z.of_nat (length entries) < 2 ^ 63 →
  0 ≤ first →
  first + Z.of_nat (length entries) < 2 ^ 64 →
  0 ≤ lastIndex r < 2 ^ 64 - 1 →
  (∀ (j : nat) ent, entries !! j = Some ent → raftpb.Index ent = first + Z.of_nat j) →
  Entries (Append eng r entries).1.1 (Append eng r entries).1.2
          first (first + Z.of_nat (length entries)) 0
  = Ok entries.
Proof.
  intros Hne Hlen _ _ _ Hconsecutive.
  destruct (last entries) as [lastEnt|] eqn:Hlast;
    [|by apply last_None in Hlast].
  assert (raftpb.Index lastEnt = first + Z.of_nat (length entries) - 1) as Hlastidx.
  { rewrite last_lookup in Hlast. apply Hconsecutive in Hlast as ->.
    destruct entries; [done|]. simpl. lia. }
  rewrite (Append_engine eng r entries lastEnt Hlast). simpl.
  apply Entries_gapless; [done|]. simpl.
  intros j ent Hj. unfold setLastIndex, MVCCPut. rewrite lookup_insert_ne by done.
  pose proof (lookup_lt_Some _ _ _ Hj) as Hjlt.
  rewrite foldl_Clear_lookup, bool_decide_eq_false_2.
  - rewrite foldl_Put_lookup. apply writtenValue_unique.
    + rewrite <- list_fmap_compose. apply NoDup_fmap_2_strong; [|].
      * intros x y Hx Hy Heq. simpl in Heq. injection Heq as Heq.
        apply list_elem_of_lookup in Hx as [jx Hx]. apply list_elem_of_lookup in Hy as [jy Hy].
        pose proof (Hconsecutive _ _ Hx) as Hix. pose proof (Hconsecutive _ _ Hy) as Hiy.
        assert (jx = jy) as -> by lia. congruence.
      * apply NoDup_alt. intros j1 j2 x H1 H2.
        pose proof (Hconsecutive _ _ H1). pose proof (Hconsecutive _ _ H2). lia.
    + apply list_elem_of_fmap. exists ent. unfold logPair.
      rewrite (Hconsecutive _ _ Hj). split; [done|]. by eapply list_elem_of_lookup_2.
  - intros Hin. apply list_elem_of_fmap in Hin as (i & [= Hi] & Hrange).
    apply elem_of_seqZ in Hrange. lia.
Qed.

End AppendProperties.

Section SnapshotProperties.
Import keys engine storage.
Context `{Collaborators}.



(** X18.  After a successful [ApplySnapshot] every key other than the hard
    state and the last index of the receiving range holds what the
    snapshot's data wrote last for it; a key the data does not carry is gone
    if it lay in the span of the snapshot's range and is untouched
    otherwise. *)
Theorem ApplySnapshot_replaces_span
    (eng eng' : Engine) (r r' : Replica) (snap : Snapshot) (data : RaftSnapshotData)
    (k : EngineKey) :
  ApplySnapshot eng r snap = (eng', r', None) →
  snapData snap = Some data →
  k ≠ RaftHardStateKey (roachpb.RangeID (desc r)) →
  k ≠ RaftLastIndexKey (roachpb.RangeID (desc r)) →
  eng' !! k
  = writtenValue k (if isReplicaData (sdRangeDescriptor data) k then None else eng !! k)
                 (KV data).
Proof.
  intros Happly Hdata Hhs Hlast.
  apply ApplySnapshot_engine in Happly as (data' & Hdata' & -> & _).
  rewrite Hdata in Hdata'. injection Hdata' as <-.
  unfold setLastIndex, MVCCPut. rewrite lookup_insert_ne by done.
  assert (∀ b : Engine,
    (match MVCCGet eng (RaftHardStateKey (roachpb.RangeID (desc r))) with
     | None => MVCCDelete
     | Some hs => fun b k => MVCCPut b k hs
     end b (RaftHardStateKey (roachpb.RangeID (desc r)))) !! k = b !! k) as ->.
  { intros b. destruct (MVCCGet eng _).
    - unfold MVCCPut. by rewrite lookup_insert_ne.
    - unfold MVCCDelete. by rewrite lookup_delete_ne. }
  by rewrite foldl_Put_lookup, cleared_lookup.
Qed.

End SnapshotProperties.

Section StorageExtraWitnesses.
Import keys engine storage.

Lemma Entries_stored_prefix_witness :
  ∃ n : nat,
    VEntry <$> [entry11; entry12]
    = (take n (omap (storedAt appendedEngine (roachpb.RangeID (desc appendedReplica)))
                    (seqZ 11 (14 - 11)))).*2.
Proof.
  apply (@Entries_stored_prefix quietCollaborators appendedEngine appendedReplica 11 14 12).
  vm_compute. reflexivity.
Defined.

Lemma Entries_at_least_one_witness : [entry11; entry12] ≠ [].
Proof.
  apply (@Entries_at_least_one quietCollaborators appendedEngine appendedReplica 11 14 12).
  - lia.
  - lia.
  - vm_compute. reflexivity.
Defined.

Lemma Entries_complete_witness :
  @Entries quietCollaborators appendedEngine appendedReplica 11 (11 + 2) 0
  = Ok [entry11; entry12].
Proof.
  apply (@Entries_complete quietCollaborators appendedEngine appendedReplica 11
           [entry11; entry12]).
  - simpl. lia.
  - intros [|[|j]] ent Hj; [| |done]; injection Hj as <-; vm_compute; reflexivity.
Defined.

Lemma Entries_no_limit_nothing_missing_witness :
  Z.of_nat (length [entry11; entry12]) = 13 - 11
  ∧ ∀ i, 11 ≤ i < 13 →
         is_Some (appendedEngine !! RaftLogKey (roachpb.RangeID (desc appendedReplica)) i).
Proof.
  apply (@Entries_no_limit_nothing_missing quietCollaborators appendedEngine appendedReplica
           11 13 [entry11; entry12]).
  - lia.
  - vm_compute. reflexivity.
Defined.

Lemma Term_of_stored_entry_witness :
  @Term quietCollaborators appendedEngine appendedReplica 12 = (appendedReplica, Ok 5).
Proof.
  apply (@Term_of_stored_entry quietCollaborators appendedEngine appendedReplica 12 entry12).
  - lia.
  - lia.
  - vm_compute. reflexivity.
Defined.

Lemma Term_of_truncated_index_witness :
  @Term quietCollaborators freshEngine freshReplica 10
  = ((raftTruncatedState freshEngine freshReplica).1,
     if 10 =? roachpb.tsIndex (roachpb.mkTruncatedState 10 5)
     then Ok (roachpb.tsTerm (roachpb.mkTruncatedState 10 5))
     else Err ErrUnavailable).
Proof.
  apply (@Term_of_truncated_index quietCollaborators freshEngine freshReplica).
  - lia.
  - lia.
  - vm_compute. reflexivity.
  - reflexivity.
Defined.

Lemma Append_last_index_and_frame_witness :
  let eng' := (Append freshEngine freshReplica [entry11; entry12]).1.1 in
  let r' := (Append freshEngine freshReplica [entry11; entry12]).1.2 in
  (Append freshEngine freshReplica [entry11; entry12]).2 = None
  ∧ LastIndex r' = raftpb.Index entry12
  ∧ loadLastIndex eng' r' = (r', Ok (raftpb.Index entry12))
  ∧ ∀ k, (∀ i, k ≠ RaftLogKey (roachpb.RangeID (desc freshReplica)) i) →
         k ≠ RaftLastIndexKey (roachpb.RangeID (desc freshReplica)) →
         eng' !! k = freshEngine !! k.
Proof.
  apply (@Append_last_index_and_frame freshEngine freshReplica [entry11; entry12] entry12).
  - reflexivity.
  - simpl. lia.
  - simpl. lia.
Defined.

(** A shorter append over a longer log: entry 12 goes when only 11 is
    appended again. *)
Lemma Append_deletes_tail_witness :
  (Append appendedEngine appendedReplica [entry11]).1.1
    !! RaftLogKey (roachpb.RangeID (desc appendedReplica)) 12 = None.
Proof.
  apply (Append_deletes_tail appendedEngine appendedReplica [entry11] entry11 12).
  - reflexivity.
  - vm_compute. split; [reflexivity|discriminate].
Defined.

Lemma Append_then_Entries_witness :
  @Entries quietCollaborators
    (Append freshEngine freshReplica [entry11; entry12]).1.1
    (Append freshEngine freshReplica [entry11; entry12]).1.2
    11 (11 + Z.of_nat (length [entry11; entry12])) 0
  = Ok [entry11; entry12].
Proof.
  apply (@Append_then_Entries quietCollaborators freshEngine freshReplica
           [entry11; entry12] 11).
  - discriminate.
  - simpl. lia.
  - lia.
  - simpl. lia.
  - simpl. lia.
  - intros [|[|j]] ent Hj; [| |done]; by injection Hj as <-.
Defined.



Definition snapshotAt20Data : RaftSnapshotData :=
  mkSnapshotData exampleDesc
    [(RaftHardStateKey 1, VHardState (raftpb.mkHardState 8 1 20));
     (RaftAppliedIndexKey 1, VInt 20);
     (RaftLastIndexKey 1, VInt 25);
     (UserKey ["b"%byte] 1 0, VBytes ["v"%byte])].

(** The log entry 11 of the receiver lies in the span and is not in the
    snapshot: it is gone afterwards. *)
Lemma ApplySnapshot_replaces_span_witness :
  let applied := @ApplySnapshot quietCollaborators votedEngine appendedReplica snapshotAt20 in
  applied.1.1 !! RaftLogKey 1 11
  = writtenValue (RaftLogKey 1 11)
      (if isReplicaData (sdRangeDescriptor snapshotAt20Data) (RaftLogKey 1 11) then None
       else votedEngine !! RaftLogKey 1 11)
      (KV snapshotAt20Data).
Proof.
  intros applied.
  assert (applied.2 = None) as Hok by (vm_compute; reflexivity).
  apply (@ApplySnapshot_replaces_span quietCollaborators votedEngine applied.1.1
           appendedReplica applied.1.2 snapshotAt20 snapshotAt20Data (RaftLogKey 1 11)).
  - fold applied. destruct applied as [[eng' r'] err]. simpl in Hok. by rewrite Hok.
  - reflexivity.
  - discriminate.
  - discriminate.
Defined.

End StorageExtraWitnesses.

(** ** More on the store *)

Section StoreLookupProperties.
Import keys engine storage.

Lemma replicaIDForStoreLoop_Ok (reps : list roachpb.ReplicaDescriptor) (storeID id : Z) :
  replicaIDForStoreLoop reps storeID = Ok id
  ↔ ∃ before rep after,
      reps = before ++ rep :: after
      ∧ Forall (fun other => roachpb.StoreID other ≠ storeID) before
      ∧ roachpb.StoreID rep = storeID ∧ roachpb.ReplicaID rep = id.
Proof.
  induction reps as [|rep reps IH]; simpl.
  - split; [done|]. intros (before & ? & ? & Heq & _). by destruct before.
  - destruct (Z.eqb_spec (roachpb.StoreID rep) storeID) as [Hstore|Hstore].
    + split.
      * intros [= <-]. by exists [], rep, reps.
      * intros ([|other before] & rep' & after & Heq & Hbefore & Hrep & Hid).
        -- injection Heq as <- _. by rewrite Hid.
        -- injection Heq as <- _. by apply Forall_cons in Hbefore as [? _].
    + rewrite IH. split.
      * intros (before & rep' & after & -> & Hbefore & Hrep & Hid).
        exists (rep :: before), rep', after. split; [done|]. split; [|done].
        by constructor.
      * intros ([|other before] & rep' & after & Heq & Hbefore & Hrep & Hid).
        -- injection Heq as <- _. done.
        -- injection Heq as <- ->. apply Forall_cons in Hbefore as [_ Hbefore].
           by exists before, rep', after.
Qed.

Lemma replicaIDForStoreLoop_Err (reps : list roachpb.ReplicaDescriptor) (storeID : Z)
    (err : error) :
  replicaIDForStoreLoop reps storeID = Err err
  ↔ err = ErrStoreNotFound ∧ Forall (fun rep => roachpb.StoreID rep ≠ storeID) reps.
Proof.
  induction reps as [|rep reps IH]; simpl.
  - split; [by intros [= <-]|by intros [-> _]].
  - destruct (Z.eqb_spec (roachpb.StoreID rep) storeID) as [Hstore|Hstore].
    + split; [done|]. intros [_ Hall]. by apply Forall_cons in Hall as [? _].
    + rewrite IH. split; intros [-> Hall]; (split; [done|]).
      * by constructor.
      * by apply Forall_cons in Hall as [_ ?].
Qed.

(** X19.  [ReplicaIDForStore] answers with the replica ID of the first
    replica of the range's descriptor that lives on the store; it fails with
    RangeNotFound exactly when the store has no replica of the range, and
    with a store-not-found error exactly when it has one whose descriptor
    lists no replica on that store. *)
Theorem ReplicaIDForStore_first_match (s : Store) (groupID storeID : Z) :
  (∀ id, ReplicaIDForStore s groupID storeID = Ok id
         ↔ ∃ r before rep after,
             replicas s !! groupID = Some r
             ∧ roachpb.Replicas (desc r) = before ++ rep :: after
             ∧ Forall (fun other => roachpb.StoreID other ≠ storeID) before
             ∧ roachpb.StoreID rep = storeID ∧ roachpb.ReplicaID rep = id)
  ∧ (ReplicaIDForStore s groupID storeID = Err ErrRangeNotFound
     ↔ replicas s !! groupID = None)
  ∧ (ReplicaIDForStore s groupID storeID = Err ErrStoreNotFound
     ↔ ∃ r, replicas s !! groupID = Some r
            ∧ Forall (fun rep => roachpb.StoreID rep ≠ storeID) (roachpb.Replicas (desc r))).
Proof.
  unfold ReplicaIDForStore, GetReplica.
  destruct (replicas s !! groupID) as [r|]; simpl.
  - split; [|split].
    + intros id. rewrite replicaIDForStoreLoop_Ok. split.
      * intros (before & rep & after & Hrest). by exists r, before, rep, after.
      * intros (r' & before & rep & after & [= <-] & Hrest). by exists before, rep, after.
    + rewrite replicaIDForStoreLoop_Err. split; [by intros [? _]|done].
    + rewrite replicaIDForStoreLoop_Err. split.
      * intros [_ Hall]. by exists r.
      * intros (r' & [= <-] & Hall). done.
  - split; [|split].
    + intros id. split; [done|]. by intros (? & ? & ? & ? & ? & _).
    + done.
    + split; [done|]. by intros (? & ? & _).
Qed.

(** X20.  [addReplicaToRangeMap] never replaces a replica: when the range ID
    is taken it fails and the store is as before; otherwise the replica is
    found under its range ID afterwards and every other range is as
    before. *)
Theorem addReplicaToRangeMap_no_overwrite (s : Store) (rng : Replica) :
  let rangeID := roachpb.RangeID (desc rng) in
  (is_Some (replicas s !! rangeID) →
     addReplicaToRangeMap s rng = (s, Some ErrRangeAlreadyExists))
  ∧ (replicas s !! rangeID = None →
       (addReplicaToRangeMap s rng).2 = None
       ∧ GetReplica (addReplicaToRangeMap s rng).1 rangeID = Ok rng
       ∧ ∀ other, other ≠ rangeID →
           GetReplica (addReplicaToRangeMap s rng).1 other = GetReplica s other).
Proof.
  intros rangeID. unfold addReplicaToRangeMap. fold rangeID. split.
  - by intros [existing ->].
  - intros ->. simpl. split; [done|]. unfold GetReplica. simpl. split.
    + by rewrite lookup_insert_eq.
    + intros other Hother. by rewrite lookup_insert_ne.
Qed.

(** X21.  When no tombstone stands in the way and [NewReplica] delivers a
    replica of the requested range, [GroupStorage] registers it as an
    uninitialized replica, leaves the engine alone, and returns the same
    replica when asked again, without changing the store a second time. *)
Theorem GroupStorage_creates_placeholder
    (NewReplica : roachpb.RangeDescriptor → Store → result error Replica)
    (s : Store) (groupID replicaID : Z) (r : Replica) :
  replicas s !! groupID = None →
  engine_ s !! RaftTombstoneKey groupID = None →
  NewReplica (roachpb.mkRangeDescriptor groupID None None [] 0) s = Ok r →
  roachpb.RangeID (desc r) = groupID →
  let s' := (GroupStorage NewReplica s groupID replicaID).1 in
  (GroupStorage NewReplica s groupID replicaID).2 = Ok r
  ∧ replicas s' !! groupID = Some r
  ∧ groupID ∈ uninitReplicas s'
  ∧ engine_ s' = engine_ s
  ∧ ∀ replicaID', GroupStorage NewReplica s' groupID replicaID' = (s', Ok r).
Proof.
  intros Hnone Htomb Hnew Hrange.
  assert (GroupStorage NewReplica s groupID replicaID
          = (mkStore (Ident s) (engine_ s) (<[groupID := r]> (replicas s))
                     ({[ groupID ]} ∪ uninitReplicas s), Ok r)) as ->.
  { unfold GroupStorage, MVCCGetProto, MVCCGet. rewrite Hnone, Htomb, Hnew. simpl.
    unfold addReplicaToRangeMap. by rewrite Hrange, Hnone. }
  simpl. split; [done|]. split; [by rewrite lookup_insert_eq|].
  split; [set_solver|]. split; [done|].
  intros replicaID'. unfold GroupStorage. simpl. by rewrite lookup_insert_eq.
Qed.

Lemma GroupStorage_creates_placeholder_witness :
  let s' := (GroupStorage newPlaceholder identifiedStore 7 0).1 in
  (GroupStorage newPlaceholder identifiedStore 7 0).2
  = Ok (mkReplica (roachpb.mkRangeDescriptor 7 None None [] 0) 0 0 None
                  (roachpb.mkStats 0 0 0) None 0)
  ∧ replicas s' !! 7
    = Some (mkReplica (roachpb.mkRangeDescriptor 7 None None [] 0) 0 0 None
                      (roachpb.mkStats 0 0 0) None 0)
  ∧ 7 ∈ uninitReplicas s'
  ∧ engine_ s' = engine_ identifiedStore
  ∧ ∀ replicaID',
      GroupStorage newPlaceholder s' 7 replicaID'
      = (s', Ok (mkReplica (roachpb.mkRangeDescriptor 7 None None [] 0) 0 0 None
                           (roachpb.mkStats 0 0 0) None 0)).
Proof.
  apply (GroupStorage_creates_placeholder newPlaceholder identifiedStore 7 0); reflexivity.
Defined.

(** X22.  After a successful [Bootstrap] the engine is taken: a store
    opened on it that is asked to bootstrap fails, whatever ident it is
    given, and holds the persisted ident afterwards. *)
Theorem Bootstrap_then_Bootstrap (s s2 : Store) (ident ident2 : roachpb.StoreIdent) :
  (Bootstrap s ident).2 = None →
  roachpb.identNodeID (Ident s2) = 0 →
  engine_ s2 = engine_ (Bootstrap s ident).1 →
  Bootstrap s2 ident2 = (setIdent s2 ident, Some ErrBelongsToCluster).
Proof.
  intros Hok Hfresh Hengine.
  assert (engine_ (Bootstrap s ident).1 = {[ StoreIdentKey := VStoreIdent ident ]})
    as Hwritten.
  { revert Hok. unfold Bootstrap.
    destruct (negb (roachpb.identNodeID (Ident s) =? 0)); [done|]. simpl.
    rewrite Scan_nonempty. case_bool_decide as Hempty; simpl.
    - intros _. rewrite Hempty. unfold MVCCPut. by rewrite insert_empty.
    - by destruct (MVCCGetProto getStoreIdent (engine_ s) StoreIdentKey) as [[found|]|err]. }
  rewrite Hwritten in Hengine.
  unfold Bootstrap. rewrite Hfresh. simpl. rewrite Scan_nonempty, Hengine.
  rewrite bool_decide_eq_false_2.
  - simpl. unfold MVCCGetProto, MVCCGet. by rewrite lookup_singleton_eq.
  - intros Hempty. apply (f_equal (fun m : Engine => m !! StoreIdentKey)) in Hempty.
    by rewrite lookup_singleton_eq in Hempty.
Qed.

Definition emptyStore : Store := mkStore noIdent ∅ ∅ ∅.

Lemma Bootstrap_then_Bootstrap_witness :
  Bootstrap (mkStore noIdent (engine_ (Bootstrap emptyStore (roachpb.mkStoreIdent clusterA 1 1)).1) ∅ ∅)
            (roachpb.mkStoreIdent ["B"%byte] 2 2)
  = (setIdent (mkStore noIdent (engine_ (Bootstrap emptyStore (roachpb.mkStoreIdent clusterA 1 1)).1) ∅ ∅)
              (roachpb.mkStoreIdent clusterA 1 1),
     Some ErrBelongsToCluster).
Proof.
  apply (Bootstrap_then_Bootstrap emptyStore); reflexivity.
Defined.

End StoreLookupProperties.

(** ** More on coalesced heartbeats *)

Section HeartbeatStateProperties.
Import multiraft.
Context {St : Type} `{Storage St}.

(** X23.  [fanoutHeartbeat] changes nothing of the state but the table of
    known nodes, and of that only the sender's entry: a sender that is
    already known leaves the table as it is, and a heartbeat from an unknown
    node makes no step at all, is answered, and registers the sender as a
    node without groups. *)
Theorem fanoutHeartbeat_registers_sender (s : state St) (req : RaftMessageRequest) :
  nodeID (fanoutHeartbeat s req).1.1 = nodeID s
  ∧ storeID (fanoutHeartbeat s req).1.1 = storeID s
  ∧ Storage_ (fanoutHeartbeat s req).1.1 = Storage_ s
  ∧ groups (fanoutHeartbeat s req).1.1 = groups s
  ∧ (∀ id, id ≠ int32 (raftpb.msgFrom (Message req)) →
       nodes (fanoutHeartbeat s req).1.1 !! id = nodes s !! id)
  ∧ (is_Some (nodes s !! int32 (raftpb.msgFrom (Message req))) →
       (fanoutHeartbeat s req).1.1 = s)
  ∧ (nodes s !! int32 (raftpb.msgFrom (Message req)) = None →
       (fanoutHeartbeat s req).1.2 = [TransportSend (heartbeatResponse s req)]
       ∧ (fanoutHeartbeat s req).2 = None
       ∧ nodes (fanoutHeartbeat s req).1.1 !! int32 (raftpb.msgFrom (Message req))
         = Some (mkNode (int32 (raftpb.msgFrom (Message req))) ∅)).
Proof.
  unfold fanoutHeartbeat. set (fromID := int32 (raftpb.msgFrom (Message req))).
  destruct (nodes s !! fromID) as [originNode|] eqn:Hfrom.
  - destruct (fanoutLoop s req fromID (elements (groupIDs originNode)) [])
      as [calls [err|]]; simpl.
    + split_and!; done.
    + unfold sendMessage. simpl. fold fromID. rewrite Hfrom. simpl.
      split_and!; done.
  - unfold sendMessage, addNode. simpl. fold fromID. rewrite Hfrom. simpl.
    split_and!; try done.
    + intros id Hid. by rewrite lookup_insert_ne.
    + intros _. split_and!; try done. by rewrite lookup_insert_eq.
Qed.

(** The response that [fanoutHeartbeatResponse] steps into a group, if it
    steps one. *)
Definition responseFor (s : state St) (req : RaftMessageRequest) (groupID : Z)
  : option raftpb.Message :=
  let fromID := int32 (raftpb.msgFrom (Message req)) in
  match groups s !! groupID with
  | None => None
  | Some g =>
      if (roachpb.NodeID (leader g) =? nodeID s) && negb (fromID =? nodeID s) then
        match ReplicaIDForStore (Storage_ s) groupID (roachpb.StoreID (FromReplica req)),
              ReplicaIDForStore (Storage_ s) groupID (roachpb.StoreID (ToReplica req)) with
        | Ok fromRepID, Ok toRepID =>
            Some (raftpb.mkMessage raftpb.MsgHeartbeatResp (uint64 toRepID) (uint64 fromRepID))
        | _, _ => None
        end
      else None
  end.

Lemma responseFor_Some (s : state St) (req : RaftMessageRequest) (groupID : Z)
    (msg : raftpb.Message) :
  responseFor s req groupID = Some msg
  ↔ ∃ g fromRepID toRepID,
      groups s !! groupID = Some g
      ∧ roachpb.NodeID (leader g) = nodeID s
      ∧ int32 (raftpb.msgFrom (Message req)) ≠ nodeID s
      ∧ ReplicaIDForStore (Storage_ s) groupID (roachpb.StoreID (FromReplica req)) = Ok fromRepID
      ∧ ReplicaIDForStore (Storage_ s) groupID (roachpb.StoreID (ToReplica req)) = Ok toRepID
      ∧ msg = raftpb.mkMessage raftpb.MsgHeartbeatResp (uint64 toRepID) (uint64 fromRepID).
Proof.
  unfold responseFor. split.
  - destruct (groups s !! groupID) as [g|]; [|done].
    destruct (Z.eqb_spec (roachpb.NodeID (leader g)) (nodeID s)) as [Hleader|]; [|done].
    destruct (Z.eqb_spec (int32 (raftpb.msgFrom (Message req))) (nodeID s)) as [|Hself];
      [done|]. simpl.
    destruct (ReplicaIDForStore _ _ (roachpb.StoreID (FromReplica req))) as [fromRepID|];
      [|done].
    destruct (ReplicaIDForStore _ _ (roachpb.StoreID (ToReplica req))) as [toRepID|];
      [|done].
    intros [= <-]. by exists g, fromRepID, toRepID.
  - intros (g & fromRepID & toRepID & -> & Hleader & Hself & -> & -> & ->).
    apply Z.eqb_eq in Hleader. apply Z.eqb_neq in Hself. by rewrite Hleader, Hself.
Qed.

Lemma fanoutResponseToGroup_responseFor (s : state St) (req : RaftMessageRequest)
    (groupID : Z) :
  is_Some (groups s !! groupID) →
  fanoutResponseToGroup s req (int32 (raftpb.msgFrom (Message req))) groupID
  = Ok (match responseFor s req groupID with
        | Some msg => [Step groupID msg]
        | None => []
        end).
Proof.
  intros [g Hg]. unfold fanoutResponseToGroup, responseFor. rewrite Hg.
  destruct (roachpb.NodeID (leader g) =? _); simpl; [|done].
  destruct (_ =? nodeID s); simpl; [done|].
  destruct (ReplicaIDForStore _ _ (roachpb.StoreID (FromReplica req))); [|done].
  by destruct (ReplicaIDForStore _ _ (roachpb.StoreID (ToReplica req))).
Qed.

Lemma fanoutResponseLoop_steps (s : state St) (req : RaftMessageRequest) (ids : list Z) :
  ∀ done : list call,
    Forall (fun groupID => is_Some (groups s !! groupID)) ids →
    fanoutResponseLoop s req (int32 (raftpb.msgFrom (Message req))) ids done
    = (done ++ ((fun gm : Z * raftpb.Message => Step gm.1 gm.2)
                  <$> omap (fun groupID => (groupID,.) <$> responseFor s req groupID) ids),
       None).
Proof.
  induction ids as [|groupID ids IH]; intros done Hknown; simpl.
  - by rewrite app_nil_r.
  - apply Forall_cons in Hknown as [Hgroup Hknown].
    rewrite fanoutResponseToGroup_responseFor by done.
    rewrite IH by done.
    destruct (responseFor s req groupID); simpl.
    + by rewrite <- app_assoc.
    + by rewrite app_nil_r.
Qed.

(** X24.  On a state whose nodes only list known groups,
    [fanoutHeartbeatResponse] steps one MsgHeartbeatResp into each group
    shared with the sender that this node leads, provided the sender is
    another node and the storage resolves the replica IDs of both stores;
    it steps into no other group, at most once into each, and sends nothing
    on the transport. *)
Theorem fanoutHeartbeatResponse_steps_led_groups (s : state St) (req : RaftMessageRequest) :
  (∀ groupID, groupID ∈ sharedGroups s req → is_Some (groups s !! groupID)) →
  ∃ stepped : list (Z * raftpb.Message),
    fanoutHeartbeatResponse s req = ((fun gm => Step gm.1 gm.2) <$> stepped, None)
    ∧ NoDup stepped.*1
    ∧ ∀ groupID msg,
        (groupID, msg) ∈ stepped
        ↔ groupID ∈ sharedGroups s req
          ∧ ∃ g fromRepID toRepID,
              groups s !! groupID = Some g
              ∧ roachpb.NodeID (leader g) = nodeID s
              ∧ int32 (raftpb.msgFrom (Message req)) ≠ nodeID s
              ∧ ReplicaIDForStore (Storage_ s) groupID (roachpb.StoreID (FromReplica req))
                = Ok fromRepID
              ∧ ReplicaIDForStore (Storage_ s) groupID (roachpb.StoreID (ToReplica req))
                = Ok toRepID
              ∧ msg = raftpb.mkMessage raftpb.MsgHeartbeatResp
                        (uint64 toRepID) (uint64 fromRepID).
Proof.
  intros Hknown. unfold fanoutHeartbeatResponse, sharedGroups in *.
  set (fromID := int32 (raftpb.msgFrom (Message req))) in *.
  destruct (nodes s !! fromID) as [originNode|].
  - exists (omap (fun groupID => (groupID,.) <$> responseFor s req groupID)
                 (elements (groupIDs originNode))).
    split; [|split].
    + unfold fromID. rewrite fanoutResponseLoop_steps; [done|].
      apply Forall_forall. intros groupID Hin. apply Hknown. by apply elem_of_elements.
    + pose proof (NoDup_elements (groupIDs originNode)) as Hnodup.
      induction Hnodup as [|groupID ids Hnotin Hnodup IH]; [constructor|].
      cbn [omap list_omap]. destruct (responseFor s req groupID) as [msg|]; simpl; [|done].
      constructor; [|done].
      intros Hin. apply list_elem_of_fmap in Hin as ([groupID' msg'] & -> & Hin).
      apply list_elem_of_omap in Hin as (groupID'' & Hin & Heq).
      destruct (responseFor s req groupID''); simplify_eq/=. done.
    + intros groupID msg. rewrite list_elem_of_omap. unfold fromID.
      rewrite <- responseFor_Some. split.
      * intros (groupID' & Hin & Heq).
        destruct (responseFor s req groupID') eqn:Hresp; simplify_eq/=.
        split; [by apply elem_of_elements|done].
      * intros [Hin Hresp]. exists groupID. split; [by apply elem_of_elements|].
        by rewrite Hresp.
  - exists []. split; [done|]. split; [constructor|].
    intros groupID msg. split; [by intros ?%elem_of_nil|].
    intros [Hin _]. by apply not_elem_of_empty in Hin.
Qed.

(** The coalesced heartbeat for the node [id]. *)
Definition heartbeatTo (s : state St) (id : Z) : RaftMessageRequest :=
  mkRequest noGroup
    (roachpb.mkReplicaDescriptor id id 0)
    (roachpb.mkReplicaDescriptor (nodeID s) (nodeID s) 0)
    (raftpb.mkMessage raftpb.MsgHeartbeat (uint64 id) (uint64 (nodeID s))).

(** A node ID is an int32: widening it to uint64 and back gives it again. *)
Definition isNodeID (id : Z) : Prop := - 2 ^ 31 ≤ id < 2 ^ 31.

#[global] Instance isNodeID_dec (id : Z) : Decision (isNodeID id).
Proof. unfold isNodeID. apply _. Defined.

Lemma int32_uint64 (id : Z) : isNodeID id → int32 (uint64 id) = id.
Proof.
  unfold isNodeID, int32, uint64. intros Hid.
  destruct (Z_lt_le_dec id 0) as [Hneg|Hpos].
  - replace (id mod 2 ^ 64) with (id + 2 ^ 64).
    + replace (id + 2 ^ 64 + 2 ^ 31) with (id + 2 ^ 31 + 2 ^ 32 * 2 ^ 32) by lia.
      rewrite Z_mod_plus_full, Z.mod_small; lia.
    + apply Z.mod_unique with (-1); lia.
  - rewrite (Z.mod_small id) by lia. rewrite Z.mod_small; lia.
Qed.

Lemma sendMessage_known_node (s : state St) (id : Z) :
  isNodeID id → isNodeID (nodeID s) → is_Some (nodes s !! id) →
  sendMessage s (raftpb.mkMessage raftpb.MsgHeartbeat (uint64 id) (uint64 (nodeID s)))
  = (s, [TransportSend (heartbeatTo s id)]).
Proof.
  intros Hid Hself [n Hn]. unfold sendMessage, heartbeatTo. simpl.
  rewrite !int32_uint64 by done. by rewrite Hn.
Qed.

Lemma coalescedHeartbeat_loop (s : state St) (ids : list Z) :
  isNodeID (nodeID s) →
  ∀ done : list call,
    Forall (fun id => isNodeID id ∧ is_Some (nodes s !! id)) ids →
    foldl (fun (acc : state St * list call) (id : Z) =>
             if id =? nodeID acc.1 then acc
             else
               let sent :=
                 sendMessage acc.1
                   (raftpb.mkMessage raftpb.MsgHeartbeat (uint64 id) (uint64 (nodeID acc.1))) in
               (sent.1, acc.2 ++ sent.2))
          (s, done) ids
    = (s, done ++ ((fun id => TransportSend (heartbeatTo s id))
                     <$> filter (fun id => id ≠ nodeID s) ids)).
Proof.
  intros Hself. induction ids as [|id ids IH]; intros done Hids.
  - simpl. by rewrite app_nil_r.
  - apply Forall_cons in Hids as [[Hid [n Hn]] Hids]. cbn [foldl fst snd].
    destruct (Z.eqb_spec id (nodeID s)) as [Heq|Hne].
    + rewrite IH by done. by rewrite filter_cons_False by (by intros ?).
    + rewrite sendMessage_known_node by eauto. cbn [fst snd].
      rewrite IH by done. rewrite filter_cons_True by done.
      cbn [fmap list_fmap]. by rewrite <- app_assoc.
Qed.

(** X25.  When the node IDs in use are int32 values, [coalescedHeartbeat]
    sends exactly one MsgHeartbeat on the transport to every known node
    other than this one, none to itself, addressed by node ID and outside
    any group, and leaves the state as it is. *)
Theorem coalescedHeartbeat_one_per_other_node (s : state St) :
  isNodeID (nodeID s) →
  set_Forall isNodeID (dom (nodes s)) →
  ∃ ids : list Z,
    coalescedHeartbeat s = (s, (fun id => TransportSend (heartbeatTo s id)) <$> ids)
    ∧ NoDup ids
    ∧ ∀ id, id ∈ ids ↔ is_Some (nodes s !! id) ∧ id ≠ nodeID s.
Proof.
  intros Hself Hnodes.
  exists (filter (fun id => id ≠ nodeID s) (elements (dom (nodes s)))).
  split; [|split].
  - unfold coalescedHeartbeat. rewrite coalescedHeartbeat_loop; [done|done|].
    apply Forall_forall. intros id Hin%elem_of_elements. split; [by apply Hnodes|].
    by apply elem_of_dom.
  - apply NoDup_filter, NoDup_elements.
  - intros id. rewrite list_elem_of_filter, elem_of_elements, elem_of_dom. tauto.
Qed.

End HeartbeatStateProperties.

Section HeartbeatStateExamples.
Import multiraft.

(** Node 2 answers the coalesced heartbeat of node 1. *)
Definition responseFrom2 : RaftMessageRequest :=
  mkRequest noGroup
    (roachpb.mkReplicaDescriptor 1 1 0)
    (roachpb.mkReplicaDescriptor 2 2 0)
    (raftpb.mkMessage raftpb.MsgHeartbeatResp 1 2).

(** Node 1 leads group 1 and follows node 3 in group 2; node 2 is in both. *)
Definition leaderState : state storage.Store :=
  mkState 1 1
    (storage.mkStore (roachpb.mkStoreIdent clusterA 1 1) ∅ {[ 1 := freshReplica ]} ∅)
    {[ 1 := ledBy 1 1; 2 := ledBy 2 3 ]}
    {[ 1 := mkNode 1 {[ 1; 2 ]}; 2 := mkNode 2 {[ 1; 2 ]}; 3 := mkNode 3 {[ 2 ]} ]}.

Example fanoutHeartbeatResponse_leader :
  fanoutHeartbeatResponse leaderState responseFrom2
  = ([Step 1 (raftpb.mkMessage raftpb.MsgHeartbeatResp 1 2)], None).
Proof. vm_compute. reflexivity. Qed.

Lemma fanoutHeartbeatResponse_steps_led_groups_witness :
  ∃ stepped : list (Z * raftpb.Message),
    fanoutHeartbeatResponse leaderState responseFrom2
    = ((fun gm => Step gm.1 gm.2) <$> stepped, None)
    ∧ NoDup stepped.*1
    ∧ ∀ groupID msg,
        (groupID, msg) ∈ stepped
        ↔ groupID ∈ sharedGroups leaderState responseFrom2
          ∧ ∃ g fromRepID toRepID,
              groups leaderState !! groupID = Some g
              ∧ roachpb.NodeID (leader g) = nodeID leaderState
              ∧ int32 (raftpb.msgFrom (Message responseFrom2)) ≠ nodeID leaderState
              ∧ ReplicaIDForStore (Storage_ leaderState) groupID
                  (roachpb.StoreID (FromReplica responseFrom2)) = Ok fromRepID
              ∧ ReplicaIDForStore (Storage_ leaderState) groupID
                  (roachpb.StoreID (ToReplica responseFrom2)) = Ok toRepID
              ∧ msg = raftpb.mkMessage raftpb.MsgHeartbeatResp
                        (uint64 toRepID) (uint64 fromRepID).
Proof.
  apply (fanoutHeartbeatResponse_steps_led_groups leaderState responseFrom2).
  apply (bool_decide_unpack
           (set_Forall (fun groupID => is_Some (groups leaderState !! groupID))
                       (sharedGroups leaderState responseFrom2))).
  vm_compute. exact I.
Defined.

Lemma coalescedHeartbeat_one_per_other_node_witness :
  ∃ ids : list Z,
    coalescedHeartbeat leaderState
    = (leaderState, (fun id => TransportSend (heartbeatTo leaderState id)) <$> ids)
    ∧ NoDup ids
    ∧ ∀ id, id ∈ ids ↔ is_Some (nodes leaderState !! id) ∧ id ≠ nodeID leaderState.
Proof.
  apply (coalescedHeartbeat_one_per_other_node leaderState).
  - apply (bool_decide_unpack _). vm_compute. exact I.
  - apply (bool_decide_unpack _). vm_compute. exact I.
Defined.

End HeartbeatStateExamples.

(** ** More on combining batch responses *)

Section CombineErrorProperties.
Import roachpb.
Context {Resp Txn : Type} `{Response Resp} `{Transaction Txn}.

(** One round of the loop, whatever the slot: it either stops with the
    slot's own error, leaving the slots alone, or goes on with the slot
    combined. *)
Lemma combineLoop_step (n i : nat) (left right : list Resp) (valLeft valRight : Resp) :
  left !! i = Some valLeft → right !! i = Some valRight →
  (∃ err, isCombinable valLeft && isCombinable valRight = true
          ∧ slotCombine valLeft valRight = Err err
          ∧ combineLoop (S n) i left right = (left, Some err))
  ∨ ((isCombinable valLeft && isCombinable valRight = true →
        is_ok (slotCombine valLeft valRight) = true)
     ∧ combineLoop (S n) i left right
       = combineLoop n (S i) (<[i := combinedSlot valLeft valRight]> left) right).
Proof.
  intros Hl Hr. cbn [combineLoop]. rewrite Hl, Hr. unfold combinedSlot.
  destruct (isCombinable valLeft && isCombinable valRight).
  - destruct (slotCombine valLeft valRight) as [combined|err].
    + right. done.
    + left. by exists err.
  - right. split; [done|]. destruct (isNoopResponse valLeft); [done|].
    by rewrite list_insert_id.
Qed.

Lemma combineLoop_error (orig right : list Resp) (n : nat) :
  ∀ (i : nat) (left slots : list Resp) (err : error),
    length left = length orig → length right = length orig →
    (i + n = length orig)%nat →
    (∀ j, (i ≤ j)%nat → left !! j = orig !! j) →
    combineLoop n i left right = (slots, Some err) →
    length slots = length orig
    ∧ (∀ j, (j < i)%nat → slots !! j = left !! j)
    ∧ ∃ (k : nat) (valLeft valRight : Resp),
        (i ≤ k)%nat
        ∧ orig !! k = Some valLeft ∧ right !! k = Some valRight
        ∧ isCombinable valLeft && isCombinable valRight = true
        ∧ slotCombine valLeft valRight = Err err
        ∧ (∀ j l r, (i ≤ j < k)%nat → orig !! j = Some l → right !! j = Some r →
             slots !! j = Some (combinedSlot l r))
        ∧ (∀ j, (k ≤ j)%nat → slots !! j = orig !! j).
Proof.
  induction n as [|n IH]; intros i left slots err Hleft Hright Hin Hsame Hrun; [done|].
  destruct (lookup_lt_is_Some_2 orig i) as [valLeft HvalLeft]; [lia|].
  destruct (lookup_lt_is_Some_2 right i) as [valRight HvalRight]; [lia|].
  assert (left !! i = Some valLeft) as Hl by (by rewrite Hsame by lia).
  destruct (combineLoop_step n i left right valLeft valRight Hl HvalRight)
    as [(err' & Hboth & Herr & Hstop)|[_ Hgo]].
  - rewrite Hstop in Hrun. injection Hrun as <- <-.
    split; [done|]. split; [done|].
    exists i, valLeft, valRight. split_and!; try done.
    intros j l r Hj. lia.
  - rewrite Hgo in Hrun.
    apply IH in Hrun as (Hlen & Hbelow & k & l & r & Hk & Hkl & Hkr & Hboth & Herr
                         & Hbetween & Habove).
    + split; [done|]. split.
      { intros j Hj. rewrite Hbelow by lia. apply list_lookup_insert_ne. lia. }
      exists k, l, r. split_and!; try done; [lia|].
      intros j l' r' Hj Hjl Hjr. destruct (decide (j = i)) as [->|Hne].
      * rewrite Hbelow by lia. rewrite list_lookup_insert_eq by lia. congruence.
      * apply Hbetween; [lia|done|done].
    + by rewrite length_insert.
    + done.
    + lia.
    + intros j Hj. rewrite list_lookup_insert_ne by lia. apply Hsame. lia.
Qed.

Lemma combineLoop_success (orig right : list Resp) (n : nat) :
  ∀ (i : nat) (left slots : list Resp),
    length left = length orig → length right = length orig →
    (i + n = length orig)%nat →
    (∀ j, (i ≤ j)%nat → left !! j = orig !! j) →
    combineLoop n i left right = (slots, None) →
    ∀ j valLeft valRight,
      (i ≤ j)%nat → orig !! j = Some valLeft → right !! j = Some valRight →
      isCombinable valLeft && isCombinable valRight = true →
      is_ok (slotCombine valLeft valRight) = true.
Proof.
  induction n as [|n IH]; intros i left slots Hleft Hright Hin Hsame Hrun
    j l r Hj Hjl Hjr Hboth.
  { apply lookup_lt_Some in Hjl. lia. }
  destruct (lookup_lt_is_Some_2 orig i) as [valLeft HvalLeft]; [lia|].
  destruct (lookup_lt_is_Some_2 right i) as [valRight HvalRight]; [lia|].
  assert (left !! i = Some valLeft) as Hl by (by rewrite Hsame by lia).
  destruct (combineLoop_step n i left right valLeft valRight Hl HvalRight)
    as [(err' & _ & _ & Hstop)|[Hok Hgo]].
  - by rewrite Hstop in Hrun.
  - destruct (decide (j = i)) as [->|Hne].
    + rewrite HvalLeft in Hjl. rewrite HvalRight in Hjr. simplify_eq. by apply Hok.
    + rewrite Hgo in Hrun.
      apply (IH (S i) (<[i := combinedSlot valLeft valRight]> left) slots) with j;
        try done; try lia.
      * by rewrite length_insert.
      * intros j' Hj'. rewrite list_lookup_insert_ne by lia. apply Hsame. lia.
Qed.

(** X26.  [Combine] returns nil exactly when the two responses have the
    same number of slots and every pair of slots that are both combinable
    combines without error. *)
Theorem Combine_succeeds_iff (br otherBatch : BatchResponse Resp Txn) :
  (Combine br otherBatch).2 = None
  ↔ length (Responses otherBatch) = length (Responses br)
    ∧ slotsCombine (Responses br) (Responses otherBatch).
Proof.
  split.
  - unfold Combine.
    destruct (Nat.eqb_spec (length (Responses otherBatch)) (length (Responses br)))
      as [Hlen|Hlen]; [|done]. simpl.
    destruct (combineLoop (length (Responses br)) 0 (Responses br) (Responses otherBatch))
      as [slots [err|]] eqn:Hrun; [done|].
    intros _. split; [done|]. intros i valLeft valRight Hl Hr Hboth.
    apply (combineLoop_success (Responses br) (Responses otherBatch)
             (length (Responses br)) 0 (Responses br) slots) with i; try done. lia.
  - intros [Hlen Hok]. unfold Combine.
    apply Nat.eqb_eq in Hlen as Hlen'. rewrite Hlen'. simpl.
    destruct (combineLoop_ok (Responses br) (Responses otherBatch)
                (length (Responses br)) 0 (Responses br))
      as (slots & Hrun & _); [done|done|lia|done|done|].
    by rewrite Hrun.
Qed.

(** X27.  When [Combine] fails, the receiver's timestamp and transaction
    are not updated and it keeps its number of slots.  The error is either
    the length mismatch, and then the receiver is untouched, or the error of
    the first pair of combinable slots that does not combine, and then the
    slots before that pair have been combined and the slots after it are as
    they were (what the failing slot holds is up to its own Combine). *)
Theorem Combine_error_state (br otherBatch : BatchResponse Resp Txn) (err : error) :
  (Combine br otherBatch).2 = Some err →
  Timestamp_ (Combine br otherBatch).1 = Timestamp_ br
  ∧ Txn_ (Combine br otherBatch).1 = Txn_ br
  ∧ length (Responses (Combine br otherBatch).1) = length (Responses br)
  ∧ ((length (Responses otherBatch) ≠ length (Responses br)
      ∧ err = ErrDifferentLength ∧ (Combine br otherBatch).1 = br)
     ∨ (length (Responses otherBatch) = length (Responses br)
        ∧ ∃ (k : nat) (valLeft valRight : Resp),
            Responses br !! k = Some valLeft
            ∧ Responses otherBatch !! k = Some valRight
            ∧ isCombinable valLeft && isCombinable valRight = true
            ∧ slotCombine valLeft valRight = Err err
            ∧ (∀ j l r, (j < k)%nat →
                 Responses br !! j = Some l → Responses otherBatch !! j = Some r →
                 Responses (Combine br otherBatch).1 !! j = Some (combinedSlot l r))
            ∧ (∀ j, (k < j)%nat →
                 Responses (Combine br otherBatch).1 !! j = Responses br !! j))).
Proof.
  unfold Combine.
  destruct (Nat.eqb_spec (length (Responses otherBatch)) (length (Responses br)))
    as [Hlen|Hlen]; simpl.
  - destruct (combineLoop (length (Responses br)) 0 (Responses br) (Responses otherBatch))
      as [slots [err'|]] eqn:Hrun; [|done]. simpl. intros [= ->].
    apply (combineLoop_error (Responses br)) in Hrun
      as (Hslots & _ & k & valLeft & valRight & _ & Hl & Hr & Hboth & Herr
          & Hbefore & Hfrom); [|done|done|lia|done].
    split_and!; try done. right. split; [done|].
    exists k, valLeft, valRight. split_and!; try done.
    + intros j l r Hj. apply Hbefore. lia.
    + intros j Hj. apply Hfrom. lia.
  - intros [= <-]. split_and!; try done. by left.
Qed.

End CombineErrorProperties.

Section CombineErrorExamples.
Import roachpb.

(** The second slot answers a DeleteRange where the receiver holds rows. *)
Definition mismatchedResponse : BatchResponse ResponseUnion Timestamp :=
  {| Responses := [GetResponse (Some ["v"%byte]); DeleteRangeResponse 3; PutResponse];
     Timestamp_ := makeTS 2 5;
     Txn_ := makeTS 2 5 |}.

Lemma Combine_error_state_witness :
  Timestamp_ (Combine partialResponse mismatchedResponse).1 = Timestamp_ partialResponse
  ∧ Txn_ (Combine partialResponse mismatchedResponse).1 = Txn_ partialResponse
  ∧ length (Responses (Combine partialResponse mismatchedResponse).1)
    = length (Responses partialResponse)
  ∧ ((length (Responses mismatchedResponse) ≠ length (Responses partialResponse)
      ∧ ErrPanic = ErrDifferentLength
      ∧ (Combine partialResponse mismatchedResponse).1 = partialResponse)
     ∨ (length (Responses mismatchedResponse) = length (Responses partialResponse)
        ∧ ∃ (k : nat) (valLeft valRight : ResponseUnion),
            Responses partialResponse !! k = Some valLeft
            ∧ Responses mismatchedResponse !! k = Some valRight
            ∧ isCombinable valLeft && isCombinable valRight = true
            ∧ slotCombine valLeft valRight = Err ErrPanic
            ∧ (∀ j l r, (j < k)%nat →
                 Responses partialResponse !! j = Some l →
                 Responses mismatchedResponse !! j = Some r →
                 Responses (Combine partialResponse mismatchedResponse).1 !! j
                 = Some (combinedSlot l r))
            ∧ (∀ j, (k < j)%nat →
                 Responses (Combine partialResponse mismatchedResponse).1 !! j
                 = Responses partialResponse !! j))).
Proof.
  apply (Combine_error_state partialResponse mismatchedResponse ErrPanic). reflexivity.
Defined.

End CombineErrorExamples.
